(** * Hardcoded colour scanner: a shallow embedding of
      [scripts/find-hardcoded-colors.py] and its properties.

    Text is a [string] of 8-bit characters read as code points 0..255; the
    character classes below are Python's [re] classes ([\w], [\d], [\s]) and
    [str.isspace] restricted to that range.  Dictionaries are [gmap]s, the
    console is a pair of line buffers, and the directory traversal is the list
    of files it yields, each with the outcome of [read_text]. *)

From Stdlib Require Import Ascii.
From stdpp Require Import gmap strings list sorting pretty.

(** ** Characters and strings *)

Definition code (c : ascii) : N := N_of_ascii c.

Definition in_range (lo hi : N) (c : ascii) : bool :=
  ((lo <=? code c) && (code c <=? hi))%N.

(** [\d] *)
Definition is_digit (c : ascii) : bool := in_range 48 57 c.

(** [\w]: letters, digits and the underscore, with the alphanumeric code
    points of the range 128..255. *)
Definition is_word (c : ascii) : bool :=
  in_range 48 57 c || in_range 65 90 c || in_range 95 95 c
  || in_range 97 122 c || in_range 170 170 c || in_range 178 179 c
  || in_range 181 181 c || in_range 185 186 c || in_range 188 190 c
  || in_range 192 214 c || in_range 216 246 c || in_range 248 255 c.

(** [\s], which is also what [str.strip] removes. *)
Definition is_space (c : ascii) : bool :=
  in_range 9 13 c || in_range 28 32 c || in_range 133 133 c
  || in_range 160 160 c.

(** The alternation that closes the first pattern: whitespace, a double
    quote (code 34), a backtick or a slash; one character. *)
Definition is_delim (c : ascii) : bool :=
  is_space c || Ascii.eqb c "034" || Ascii.eqb c "`" || Ascii.eqb c "/".

(** [needle in hay] *)
Fixpoint str_in (needle hay : string) : bool :=
  String.prefix needle hay
  || match hay with
     | EmptyString => false
     | String _ hay' => str_in needle hay'
     end.

(** [content.split('\n')] *)
Fixpoint split_nl (s : string) : list string :=
  match s with
  | EmptyString => [""]
  | String c s' =>
      if Ascii.eqb c "010" then "" :: split_nl s'
      else match split_nl s' with
           | l :: ls => String c l :: ls
           | [] => [String c ""]
           end
  end.

Fixpoint lstrip (s : string) : string :=
  match s with
  | EmptyString => ""
  | String c s' => if is_space c then lstrip s' else s
  end.

(** [s.strip()] *)
Definition strip (s : string) : string :=
  String.rev (lstrip (String.rev (lstrip s))).

(** [s[:n]] *)
Definition str_take (n : nat) (s : string) : string := String.substring 0 n s.

(** [c * n] *)
Fixpoint str_repeat (c : ascii) (n : nat) : string :=
  match n with
  | O => ""
  | S n' => String c (str_repeat c n')
  end.

(** ** The fragment of Python's [re] that the script uses

    Every pattern of the script is a concatenation of literal characters,
    single-character classes and greedy one-or-more repetitions of a class.
    [match_here] is the backtracking matcher anchored at the start of its
    subject: a repetition first tries to take one more character and falls
    back to the rest of the pattern. *)

Module Re.

Inductive atom : Type :=
  | Lit (c : ascii)
  | One (p : ascii → bool)
  | Many1 (p : ascii → bool).

Definition regex : Type := list atom.

Fixpoint lit (s : string) : regex :=
  match s with
  | EmptyString => []
  | String c s' => Lit c :: lit s'
  end.

Fixpoint match_here (re : regex) (s : string) {struct s} : option string :=
  match re with
  | [] => Some ""
  | a :: re' =>
      match s with
      | EmptyString => None
      | String c s' =>
          match a with
          | Lit c0 =>
              if Ascii.eqb c c0 then String c <$> match_here re' s' else None
          | One p =>
              if p c then String c <$> match_here re' s' else None
          | Many1 p =>
              if p c then
                String c <$>
                  match match_here (Many1 p :: re') s' with
                  | Some m => Some m
                  | None => match_here re' s'
                  end
              else None
          end
      end
  end.

(** [re.search(pattern, s)], as a truth value. *)
Fixpoint search (re : regex) (s : string) : bool :=
  match match_here re s with
  | Some _ => true
  | None =>
      match s with
      | EmptyString => false
      | String _ s' => search re s'
      end
  end.

(** [re.findall(pattern, s)] for a pattern without groups that cannot match
    the empty string: the matches from left to right, the scan resuming after
    each match.  [skip] counts the characters of the last match still to be
    passed over. *)
Fixpoint findall_skip (re : regex) (skip : nat) (s : string) {struct s}
  : list string :=
  match s with
  | EmptyString => []
  | String _ s' =>
      match skip with
      | S k => findall_skip re k s'
      | O =>
          match match_here re s with
          | Some m => m :: findall_skip re (String.length m - 1) s'
          | None => findall_skip re 0 s'
          end
      end
  end.

Definition findall (re : regex) (s : string) : list string :=
  findall_skip re 0 s.

End Re.

(** ** Rule set and exclusion filter *)

Definition bg50_name : string := "bg-*-50 (use -100)".
Definition dark_bg_name : string := "dark:bg-*-N/opacity".
Definition dark_hover_name : string := "dark:hover:bg-*-N/opacity".
Definition dark_border_name : string := "dark:border-*-N/opacity".

(** [bg-\w+-50] followed by one delimiter character. *)
Definition bg50_re : Re.regex :=
  Re.lit "bg-" ++ [Re.Many1 is_word] ++ Re.lit "-50" ++ [Re.One is_delim].

(** [prefix\w+-\d+/\d+] *)
Definition opacity_re (prefix : string) : Re.regex :=
  Re.lit prefix ++ [Re.Many1 is_word; Re.Lit "-"; Re.Many1 is_digit;
                    Re.Lit "/"; Re.Many1 is_digit].

(** The rule table, in the order in which the dictionary is written and
    therefore iterated. *)
Definition PATTERNS : list (string * Re.regex) :=
  [ (bg50_name, bg50_re);
    (dark_bg_name, opacity_re "dark:bg-");
    (dark_hover_name, opacity_re "dark:hover:bg-");
    (dark_border_name, opacity_re "dark:border-") ].

(** The exclusion patterns; an escaped dot is the literal dot. *)
Definition IGNORE_PATTERNS : list Re.regex :=
  [ Re.lit "node_modules"; Re.lit ".next"; Re.lit "dist";
    Re.lit "lib/colors.ts"; Re.lit "tailwind.config" ].

Definition should_ignore (filepath : string) : bool :=
  existsb (λ pattern, Re.search pattern filepath) IGNORE_PATTERNS.

(** ** File scanner *)

(** One entry of a result list: the dictionary with the keys [line], [match]
    and [context]. *)
Record Match : Type := mkMatch {
  m_line : nat;
  m_match : string;
  m_context : string
}.

Global Instance Match_eq_dec : EqDecision Match.
Proof. solve_decision. Defined.

(** A [defaultdict(list)]: a missing key reads as the empty list. *)
Definition dd_get {V} (k : string) (d : gmap string (list V)) : list V :=
  default [] (d !! k).

(** [d[k].append(x)] *)
Definition dd_append {V} (k : string) (x : V) (d : gmap string (list V))
  : gmap string (list V) :=
  <[k := dd_get k d ++ [x]]> d.

(** The test guarding [continue]. *)
Definition suppressed (line m : string) : bool :=
  str_in "focus:ring" line && str_in "-900/50" m.

(** [line.strip()[:100]] *)
Definition context_of (line : string) : string := str_take 100 (strip line).

(** The loop [for match in matches]. *)
Definition record_matches (line_num : nat) (line pattern_name : string)
    (matches : list string) (results : gmap string (list Match))
  : gmap string (list Match) :=
  foldl (λ res m,
           if suppressed line m then res
           else dd_append pattern_name
                  (mkMatch line_num m (context_of line)) res)
        results matches.

(** The loop [for pattern_name, regex in rules.items()] over a rule table,
    in the order of the table. *)
Definition scan_rules (rules : list (string * Re.regex)) (line_num : nat)
    (line : string) (results : gmap string (list Match))
  : gmap string (list Match) :=
  foldl (λ res pr, record_matches line_num line pr.1 (Re.findall pr.2 line) res)
        results rules.

(** The body of the loop over the lines: every rule of [PATTERNS]. *)
Definition scan_line (line_num : nat) (line : string)
    (results : gmap string (list Match)) : gmap string (list Match) :=
  scan_rules PATTERNS line_num line results.

(** The loop [for line_num, line in enumerate(lines, start)], the first line
    numbered [line_num]; the script starts at 1. *)
Fixpoint scan_lines (line_num : nat) (lines : list string)
    (results : gmap string (list Match)) : gmap string (list Match) :=
  match lines with
  | [] => results
  | line :: lines' =>
      scan_lines (S line_num) lines' (scan_line line_num line results)
  end.

(** The body of the [try] block once [read_text] has returned. *)
Definition scan_content (content : string) : gmap string (list Match) :=
  scan_lines 1 (split_nl content) ∅.

(** The outcome of [filepath.read_text()]: the decoded text, or the message
    of the exception it raised. *)
Inductive read_result : Type :=
  | ReadOk (content : string)
  | ReadErr (message : string).

(** The two output streams of the process, as the lines written so far. *)
Record console : Type := mkConsole {
  stdout : list string;
  stderr : list string
}.

(** [print(s)]: one line more on standard output. *)
Definition print (s : string) (con : console) : console :=
  mkConsole (stdout con ++ [s]) (stderr con).

Definition error_line (filepath message : string) : string :=
  "Error reading " +:+ filepath +:+ ": " +:+ message.

Definition find_patterns_in_file (filepath : string) (rd : read_result)
    (con : console) : gmap string (list Match) * console :=
  match rd with
  | ReadOk content => (scan_content content, con)
  | ReadErr e => (∅, print (error_line filepath e) con)
  end.

(** ** Tree walker and aggregator *)

(** A file yielded by [APP_DIR.rglob]: its path relative to [APP_DIR.parent]
    and what reading it gives.  The path the script sees is [base] followed
    by [rel_path], [base] being [APP_DIR.parent] with its separator. *)
Record tsx_file : Type := mkFile {
  rel_path : string;
  read_text : read_result
}.

Record walk_state : Type := mkWalk {
  all_results : gmap string (gmap string (list Match));
  total_issues : nat;
  con : console
}.

(** [all_results[pattern_name][path] = matches] on the nested defaultdict. *)
Definition set_entry (pattern_name path : string) (matches : list Match)
    (all : gmap string (gmap string (list Match)))
  : gmap string (gmap string (list Match)) :=
  <[pattern_name := <[path := matches]> (default ∅ (all !! pattern_name))]> all.

(** The loop [for pattern_name, matches in results.items()]. *)
Definition merge_results (path : string) (results : gmap string (list Match))
    (acc : gmap string (gmap string (list Match)) * nat)
  : gmap string (gmap string (list Match)) * nat :=
  map_fold (λ pattern_name matches acc,
              (set_entry pattern_name path matches acc.1,
               acc.2 + length matches))
           acc results.

(** One iteration of [for tsx_file in APP_DIR.rglob(...)]. *)
Definition walk_step (base : string) (st : walk_state) (f : tsx_file)
  : walk_state :=
  if should_ignore (base +:+ rel_path f) then st
  else
    let '(results, con') :=
      find_patterns_in_file (base +:+ rel_path f) (read_text f) (con st) in
    if decide (results = ∅) then
      mkWalk (all_results st) (total_issues st) con'
    else
      let '(all, total) :=
        merge_results (rel_path f) results (all_results st, total_issues st) in
      mkWalk all total con'.

Definition walk (base : string) (files : list tsx_file) (st : walk_state)
  : walk_state :=
  foldl (walk_step base) st files.

(** ** Reporter *)

Definition nl : string := String "010" "".
Definition rule70 : string := str_repeat "=" 70.

(** The order of [sorted(d.items())]: the keys of a dictionary are distinct,
    so the comparison of two items is decided by their keys, compared as
    strings, code point by code point. *)
Definition key_le {V} (x y : string * V) : Prop := String.le x.1 y.1.

Global Instance key_le_dec {V} : RelDecision (@key_le V).
Proof. intros x y. unfold key_le. apply _. Defined.

Definition sorted_items {V} (d : gmap string V) : list (string * V) :=
  merge_sort key_le (map_to_list d).

(** [sum(len(matches) for matches in files.values())] *)
Definition match_count (files : gmap string (list Match)) : nat :=
  sum_list_with (λ kv, length kv.2) (map_to_list files).

Definition file_header (filepath : string) : string :=
  nl +:+ "  " +:+ filepath +:+ ":".

Definition match_line (m : Match) : string :=
  "    Line " +:+ pretty (m_line m) +:+ ": " +:+ m_match m.

Definition more_line (k : nat) : string :=
  "    ... and " +:+ pretty k +:+ " more".

(** The body of [for filepath, matches in sorted(files.items())]: the lines
    it prints, in order. *)
Definition report_file (filepath : string) (matches : list Match)
  : list string :=
  file_header filepath
  :: (match_line <$> take 5 matches)
  ++ (if decide (5 < length matches)
      then [more_line (length matches - 5)] else []).

Definition pattern_header (pattern_name : string)
    (files : gmap string (list Match)) : list string :=
  [ nl +:+ rule70;
    "PATTERN: " +:+ pattern_name;
    "Files: " +:+ pretty (size files) +:+ " | Occurrences: "
      +:+ pretty (match_count files);
    rule70 ].

(** The body of [for pattern_name, files in sorted(all_results.items())]. *)
Definition report_pattern (pattern_name : string)
    (files : gmap string (list Match)) : list string :=
  pattern_header pattern_name files
  ++ mjoin ((λ kv, report_file kv.1 kv.2) <$> sorted_items files).

Definition report_details (all : gmap string (gmap string (list Match)))
  : list string :=
  mjoin ((λ kv, report_pattern kv.1 kv.2) <$> sorted_items all).

Definition total_line (total : nat) : string :=
  "Total issues found: " +:+ pretty total.

Definition summary_line (pattern_name : string)
    (files : gmap string (list Match)) : string :=
  "  " +:+ pattern_name +:+ ": " +:+ pretty (match_count files)
  +:+ " occurrences in " +:+ pretty (size files) +:+ " files".

Definition remediation : list string :=
  [ "";
    "Fix these by importing from @/lib/colors:";
    "  - softBgColors, verySoftBgColors for backgrounds";
    "  - hoverBgColors for hover states";
    "  - infoBannerColors for info boxes";
    "  - alertColors for alerts/messages";
    "" ].

Definition report_summary (all : gmap string (gmap string (list Match)))
    (total : nat) : list string :=
  [ nl +:+ rule70; "SUMMARY"; rule70; total_line total; "" ]
  ++ ((λ kv, summary_line kv.1 kv.2) <$> sorted_items all)
  ++ remediation.

Definition banner : list string :=
  [ rule70; "HARDCODED COLOR SCANNER"; rule70; "" ].

Definition print_lines (lines : list string) (c : console) : console :=
  foldl (λ c l, print l c) c lines.

(** [main()]: the state after the last [print]. *)
Definition main (base : string) (files : list tsx_file) : walk_state :=
  let st0 := mkWalk ∅ 0 (print_lines banner (mkConsole [] [])) in
  let st := walk base files st0 in
  mkWalk (all_results st) (total_issues st)
    (print_lines (report_details (all_results st)
                  ++ report_summary (all_results st) (total_issues st))
                 (con st)).

(** ** Specification-level readings of the scanner

    What a line, and a list of lines, contribute to one rule: the matches
    that survive the suppression test, in order. *)

Definition kept (line : string) (regex : Re.regex) : list string :=
  filter (λ m, suppressed line m = false) (Re.findall regex line).

Definition line_records (n : nat) (line : string) (regex : Re.regex)
  : list Match :=
  (λ m, mkMatch n m (context_of line)) <$> kept line regex.

Fixpoint file_records (n : nat) (lines : list string) (regex : Re.regex)
  : list Match :=
  match lines with
  | [] => []
  | line :: lines' =>
      line_records n line regex ++ file_records (S n) lines' regex
  end.

(** The strings a pattern denotes, whatever the order in which a matcher
    tries them. *)
Inductive denotes : Re.regex → string → Prop :=
  | denotes_nil : denotes [] ""
  | denotes_lit c re m :
      denotes re m → denotes (Re.Lit c :: re) (String c m)
  | denotes_one (p : ascii → bool) c re m :
      p c = true → denotes re m → denotes (Re.One p :: re) (String c m)
  | denotes_many_last (p : ascii → bool) c re m :
      p c = true → denotes re m → denotes (Re.Many1 p :: re) (String c m)
  | denotes_many_more (p : ascii → bool) c re m :
      p c = true → denotes (Re.Many1 p :: re) m →
      denotes (Re.Many1 p :: re) (String c m).

(** [s[n:]] *)
Fixpoint str_drop (n : nat) (s : string) : string :=
  match n, s with
  | S n', String _ s' => str_drop n' s'
  | _, _ => s
  end.

(** A line that contributes no match to any rule. *)
Definition silent (line : string) : Prop :=
  Forall (λ pr : string * Re.regex, kept line pr.2 = []) PATTERNS.

(** Every character of [s] satisfies [p]. *)
Fixpoint str_forall (p : ascii → bool) (s : string) : bool :=
  match s with
  | EmptyString => true
  | String c s' => p c && str_forall p s'
  end.

(** No key of a result dictionary holds the empty list. *)
Definition no_empty_entry {V} (d : gmap string (list V)) : Prop :=
  ∀ k v, d !! k = Some v → v ≠ [].

(** The error lines a traversal prints, in traversal order. *)
Definition walk_errors (base : string) (files : list tsx_file) : list string :=
  flat_map (λ f,
              if should_ignore (base +:+ rel_path f) then []
              else match read_text f with
                   | ReadOk _ => []
                   | ReadErr e => [error_line (base +:+ rel_path f) e]
                   end)
           files.

(** What a file hands to the aggregator: nothing when it is excluded or
    cannot be read, its scan result otherwise. *)
Definition file_results (base : string) (f : tsx_file)
  : gmap string (list Match) :=
  if should_ignore (base +:+ rel_path f) then ∅
  else match read_text f with
       | ReadOk content => scan_content content
       | ReadErr _ => ∅
       end.

(** The report and the running total after a traversal, console left out. *)
Definition aggregate (base : string) (files : list tsx_file)
    (acc : gmap string (gmap string (list Match)) * nat)
  : gmap string (gmap string (list Match)) * nat :=
  foldl (λ acc f, merge_results (rel_path f) (file_results base f) acc)
        acc files.

(** The number of matches held by the whole report. *)
Definition aggregate_count (all : gmap string (gmap string (list Match)))
  : nat :=
  sum_list_with (λ kv, match_count kv.2) (map_to_list all).

(** ** Sample inputs *)

(** The double quote, as a one-character string. *)
Definition dq : string := String "034" "".

(** A line with a class attribute holding a -50 shade and one more class. *)
Definition bg50_sample : string :=
  "className=" +:+ dq +:+ "bg-red-50 p-2" +:+ dq.

Definition dark_bg_sample : string := "dark:bg-blue-900/50".
Definition focus_ring_sample : string := "focus:ring-blue-900/50".
Definition dark_hover_sample : string := "dark:hover:bg-blue-900/50".

(** A focus ring next to two dark backgrounds, one with the -900/50 suffix. *)
Definition mixed_sample : string :=
  "focus:ring-2 dark:bg-blue-900/50 dark:bg-red-800/40 bg-gray-50 ".

(** Three files of a traversal: two that can be read and one that cannot. *)
Definition readable_a : tsx_file := mkFile "app/a.tsx" (ReadOk dark_bg_sample).
Definition unreadable_b : tsx_file := mkFile "app/b.tsx" (ReadErr "denied").
Definition readable_c : tsx_file := mkFile "app/c.tsx" (ReadOk bg50_sample).

(** A file under an excluded directory whose text matches a rule. *)
Definition excluded_d : tsx_file :=
  mkFile "app/node_modules/d.tsx" (ReadOk dark_bg_sample).

(** A text whose first and third lines are the same matching line. *)
Definition repeated_sample : string :=
  "dark:bg-a-1/2" +:+ nl +:+ "x" +:+ nl +:+ "dark:bg-a-1/2".

(** Seven matches of one file. *)
Definition seven_matches : list Match :=
  (λ n, mkMatch n dark_bg_sample dark_bg_sample) <$> [1; 2; 3; 4; 5; 6; 7].

(** ** Further readings of the scanner and of the report *)

(** A record moved [k] lines down. *)
Definition shift_line (k : nat) (r : Match) : Match :=
  mkMatch (k + m_line r) (m_match r) (m_context r).

(** The matches the report holds for a file under a rule, if any:
    [all_results[rule][path]] read without creating entries. *)
Definition report_entry (all : gmap string (gmap string (list Match)))
    (rule path : string) : option (list Match) :=
  all !! rule ≫= (λ fs, fs !! path).

(** The texts of the exclusion patterns, without their escapes. *)
Definition IGNORE_TEXTS : list string :=
  [ "node_modules"; ".next"; "dist"; "lib/colors.ts"; "tailwind.config" ].

(** A file that is excluded, cannot be read, or has no match. *)
Definition hands_nothing (base : string) (f : tsx_file) : Prop :=
  should_ignore (base +:+ rel_path f) = true
  ∨ (∃ e, read_text f = ReadErr e)
  ∨ (∃ content, read_text f = ReadOk content ∧ scan_content content = ∅).

(** The first character of [s], if any, satisfies [p]. *)
Definition starts_with (p : ascii → bool) (s : string) : bool :=
  match s with
  | EmptyString => false
  | String c _ => p c
  end.

(** The prefixes of the three opacity rules. *)
Definition OPACITY_PREFIXES : list string :=
  [ "dark:bg-"; "dark:hover:bg-"; "dark:border-" ].

(** A line put together from the stretches between its matches, the
    matches, and what follows the last match. *)
Fixpoint weave (gaps matches : list string) (last : string) : string :=
  match gaps, matches with
  | g :: gaps', m :: matches' => g +:+ m +:+ weave gaps' matches' last
  | _, _ => last
  end.

(** The summary of a run that found nothing. *)
Definition empty_summary : list string :=
  [ nl +:+ rule70; "SUMMARY"; rule70; "Total issues found: 0"; "" ]
  ++ remediation.

(** * Properties *)

(** ** Strings and the matcher *)

Lemma str_in_here (needle rest : string) :
  str_in needle (needle +:+ rest) = true.
Proof.
  assert (H : String.prefix needle (needle +:+ rest) = true).
  { induction needle as [|c needle IH]; simpl.
    - by destruct rest.
    - destruct (ascii_dec c c); [exact IH | done]. }
  destruct needle; simpl in *; [by destruct rest | by rewrite H].
Qed.

Lemma str_in_app (needle pre suf : string) :
  str_in needle suf = true → str_in needle (pre +:+ suf) = true.
Proof.
  intros H. induction pre as [|c pre IH]; [done|].
  change (String c pre +:+ suf) with (String c (pre +:+ suf)).
  simpl. rewrite IH. apply orb_true_r.
Qed.

Lemma str_in_infix (needle pre suf : string) :
  str_in needle (pre +:+ needle +:+ suf) = true.
Proof. apply str_in_app, str_in_here. Qed.

Module ReFacts.
Import Re.

(** A match is a prefix of the subject. *)
Lemma match_here_prefix (re : regex) (s m : string) :
  match_here re s = Some m → ∃ rest, s = m +:+ rest.
Proof.
  revert re m. induction s as [|c s IH]; intros re m.
  - destruct re as [|a re]; simpl; [|done].
    intros [= <-]. by exists "".
  - destruct re as [|a re]; simpl.
    { intros [= <-]. by exists (String c s). }
    assert (Hstep : ∀ o : option string,
              (∀ m', o = Some m' → ∃ rest, s = m' +:+ rest) →
              String c <$> o = Some m → ∃ rest, String c s = m +:+ rest).
    { intros [m'|] Ho; simpl; [|done]. intros [= <-].
      destruct (Ho m' eq_refl) as [rest ->]. by exists rest. }
    destruct a as [c0|p|p].
    + destruct (Ascii.eqb c c0); [|done]. apply Hstep. intros m'. apply IH.
    + destruct (p c); [|done]. apply Hstep. intros m'. apply IH.
    + destruct (p c); [|done]. apply Hstep. intros m'.
      destruct (match_here (Many1 p :: re) s) as [m''|] eqn:E.
      * intros [= <-]. by apply IH in E.
      * apply IH.
Qed.

Lemma findall_skip_cons (re : regex) (k : nat) (c : ascii) (s : string) :
  findall_skip re k (String c s) =
  match k with
  | S k' => findall_skip re k' s
  | O =>
      match match_here re (String c s) with
      | Some m => m :: findall_skip re (String.length m - 1) s
      | None => findall_skip re 0 s
      end
  end.
Proof. done. Qed.

(** Every element of [findall] is a match anchored somewhere in the line. *)
Lemma findall_skip_elem (re : regex) (k : nat) (s m : string) :
  m ∈ findall_skip re k s →
  ∃ pre suf, s = pre +:+ suf ∧ match_here re suf = Some m.
Proof.
  revert k. induction s as [|c s IH]; intros k.
  - by intros ?%elem_of_nil.
  - rewrite findall_skip_cons.
    assert (Hrec : ∀ k', m ∈ findall_skip re k' s →
              ∃ pre suf, String c s = pre +:+ suf ∧ match_here re suf = Some m).
    { intros k' (pre & suf & -> & Hm)%IH. by exists (String c pre), suf. }
    destruct k as [|k]; [|by apply Hrec].
    destruct (match_here re (String c s)) as [m'|] eqn:E; [|by apply Hrec].
    intros [->|Hin]%elem_of_cons; [|by eapply Hrec].
    by exists "", (String c s).
Qed.

Lemma findall_elem (re : regex) (s m : string) :
  m ∈ findall re s →
  ∃ pre suf, s = pre +:+ suf ∧ match_here re suf = Some m.
Proof. apply findall_skip_elem. Qed.

(** Hence every element of [findall] occurs in the line. *)
Lemma findall_str_in (re : regex) (s m : string) :
  m ∈ findall re s → str_in m s = true.
Proof.
  intros (pre & suf & -> & [rest ->]%match_here_prefix)%findall_elem.
  apply str_in_infix.
Qed.

(** The matcher finds a string of the pattern, *)
Lemma match_here_sound (re : regex) (s m : string) :
  match_here re s = Some m → denotes re m.
Proof.
  revert re m. induction s as [|c s IH]; intros re m.
  - destruct re as [|a re]; simpl; [|done]. intros [= <-]. constructor.
  - destruct re as [|a re]; cbn [match_here].
    { intros [= <-]. constructor. }
    destruct a as [c0|p|p].
    + destruct (Ascii.eqb_spec c c0) as [<-|]; [|done].
      destruct (match_here re s) as [m'|] eqn:E; simpl; [|done].
      intros [= <-]. constructor. by apply IH.
    + destruct (p c) eqn:Hp; [|done].
      destruct (match_here re s) as [m'|] eqn:E; simpl; [|done].
      intros [= <-]. constructor; [done|]. by apply IH.
    + destruct (p c) eqn:Hp; [|done].
      destruct (match_here (Many1 p :: re) s) as [m1|] eqn:E1.
      * simpl. intros [= <-]. apply denotes_many_more; [done|]. by apply IH.
      * destruct (match_here re s) as [m'|] eqn:E2; simpl; [|done].
        intros [= <-]. apply denotes_many_last; [done|]. by apply IH.
Qed.

(** and it finds one whenever the subject starts with one. *)
Lemma match_here_complete (re : regex) (m rest : string) :
  denotes re m → is_Some (match_here re (m +:+ rest)).
Proof.
  induction 1 as [|c re m _ IH|p c re m Hp _ IH|p c re m Hp _ IH
                  |p c re m Hp _ IH].
  - by destruct rest.
  - change (String c m +:+ rest) with (String c (m +:+ rest)).
    cbn [match_here]. rewrite Ascii.eqb_refl.
    destruct IH as [m' ->]. by eexists.
  - change (String c m +:+ rest) with (String c (m +:+ rest)).
    cbn [match_here]. rewrite Hp. destruct IH as [m' ->]. by eexists.
  - change (String c m +:+ rest) with (String c (m +:+ rest)).
    cbn [match_here]. rewrite Hp.
    destruct (match_here (Many1 p :: re) (m +:+ rest)); [by eexists|].
    destruct IH as [m' ->]. by eexists.
  - change (String c m +:+ rest) with (String c (m +:+ rest)).
    cbn [match_here]. rewrite Hp. destruct IH as [m' ->]. by eexists.
Qed.

(** A literal pattern matches where it is a prefix, so that searching for it
    is the substring test. *)
Lemma match_here_lit (t s : string) :
  match_here (lit t) s = if String.prefix t s then Some t else None.
Proof.
  revert s. induction t as [|a t IH]; intros s.
  - by destruct s.
  - destruct s as [|b s]; [done|]. cbn [lit match_here String.prefix].
    destruct (Ascii.eqb_spec b a) as [->|Hne].
    + destruct (ascii_dec a a); [|done]. rewrite IH.
      by destruct (String.prefix t s).
    + by destruct (ascii_dec a b) as [->|].
Qed.

Lemma search_lit (t s : string) : search (lit t) s = str_in t s.
Proof.
  induction s as [|c s IH]; cbn [search str_in]; rewrite match_here_lit.
  - by destruct (String.prefix t "").
  - rewrite IH. by destruct (String.prefix t (String c s)).
Qed.

(** [findall] resumes right after each match and one character further on
    where there is none. *)
Lemma findall_skip_drop (re : regex) (k : nat) (s : string) :
  findall_skip re k s = findall re (str_drop k s).
Proof.
  revert k. induction s as [|c s IH]; intros k; [by destruct k|].
  destruct k as [|k]; [done|]. rewrite findall_skip_cons. apply IH.
Qed.

Lemma findall_unfold (re : regex) (c : ascii) (s : string) :
  findall re (String c s) =
  match match_here re (String c s) with
  | Some m => m :: findall re (str_drop (String.length m - 1) s)
  | None => findall re s
  end.
Proof.
  unfold findall at 1. rewrite findall_skip_cons.
  destruct (match_here re (String c s)); [|done].
  by rewrite findall_skip_drop.
Qed.

End ReFacts.

(** ** The scanner, rule by rule *)

Lemma dd_get_append_eq {V} (k : string) (x : V) (d : gmap string (list V)) :
  dd_get k (dd_append k x d) = dd_get k d ++ [x].
Proof. unfold dd_append, dd_get at 1. by rewrite lookup_insert_eq. Qed.

Lemma dd_append_lookup_ne {V} (k k' : string) (x : V)
    (d : gmap string (list V)) :
  k ≠ k' → dd_append k x d !! k' = d !! k'.
Proof. intros. unfold dd_append. by rewrite lookup_insert_ne. Qed.

Lemma dd_append_no_empty {V} (k : string) (x : V) (d : gmap string (list V)) :
  no_empty_entry d → no_empty_entry (dd_append k x d).
Proof.
  intros Hd k' v. destruct (decide (k = k')) as [<-|Hne].
  - unfold dd_append. rewrite lookup_insert_eq. intros [= <-].
    by destruct (dd_get k d).
  - rewrite dd_append_lookup_ne by done. apply Hd.
Qed.

Lemma dd_get_nil_lookup {V} (k : string) (d : gmap string (list V)) :
  no_empty_entry d → dd_get k d = [] → d !! k = None.
Proof.
  unfold dd_get. intros Hd. destruct (d !! k) as [v|] eqn:E; [|done].
  simpl. intros ->. by destruct (Hd _ _ E).
Qed.

Section record_matches.
Context (n : nat) (line name : string).

Lemma record_matches_get (ms : list string) (res : gmap string (list Match)) :
  dd_get name (record_matches n line name ms res) =
  dd_get name res ++
    ((λ m, mkMatch n m (context_of line)) <$>
       filter (λ m, suppressed line m = false) ms).
Proof.
  unfold record_matches. revert res.
  induction ms as [|m ms IH]; intros res; simpl.
  { by rewrite app_nil_r. }
  rewrite IH, filter_cons. destruct (suppressed line m) eqn:E.
  - by rewrite decide_False by done.
  - rewrite decide_True by done.
    by rewrite dd_get_append_eq, fmap_cons, <- app_assoc.
Qed.

Lemma record_matches_lookup_ne (k : string) (ms : list string)
    (res : gmap string (list Match)) :
  name ≠ k → record_matches n line name ms res !! k = res !! k.
Proof.
  intros Hne. unfold record_matches. revert res.
  induction ms as [|m ms IH]; intros res; simpl; [done|].
  rewrite IH. destruct (suppressed line m); [done|].
  by apply dd_append_lookup_ne.
Qed.

Lemma record_matches_no_empty (ms : list string)
    (res : gmap string (list Match)) :
  no_empty_entry res → no_empty_entry (record_matches n line name ms res).
Proof.
  unfold record_matches. revert res.
  induction ms as [|m ms IH]; intros res Hres; simpl; [done|].
  apply IH. destruct (suppressed line m); [done|].
  by apply dd_append_no_empty.
Qed.
End record_matches.

(** The loop over the rules, for any rule table with distinct names. *)

Lemma scan_rules_cons name regex rules n line res :
  scan_rules ((name, regex) :: rules) n line res =
  scan_rules rules n line
    (record_matches n line name (Re.findall regex line) res).
Proof. done. Qed.

Lemma scan_rules_other rules n line res (k : string) :
  k ∉ rules.*1 → scan_rules rules n line res !! k = res !! k.
Proof.
  revert res.
  induction rules as [|[name regex] rules IH]; intros res Hk; [done|].
  rewrite fmap_cons, not_elem_of_cons in Hk. destruct Hk as [Hne Hk].
  rewrite scan_rules_cons, IH by done. by apply record_matches_lookup_ne.
Qed.

Lemma scan_rules_get rules n line res (name : string) (regex : Re.regex) :
  NoDup rules.*1 → (name, regex) ∈ rules →
  dd_get name (scan_rules rules n line res) =
  dd_get name res ++ line_records n line regex.
Proof.
  revert res.
  induction rules as [|[name' regex'] rules IH]; intros res Hnd Hin.
  { by apply elem_of_nil in Hin. }
  rewrite fmap_cons, NoDup_cons in Hnd. destruct Hnd as [Hfresh Hnd].
  rewrite scan_rules_cons. apply elem_of_cons in Hin as [[= <- <-]|Hin].
  - unfold dd_get at 1. rewrite scan_rules_other by done.
    apply record_matches_get.
  - rewrite IH by done. f_equal. unfold dd_get.
    rewrite record_matches_lookup_ne; [done|].
    intros ->. apply Hfresh. apply list_elem_of_fmap. by exists (name, regex).
Qed.

Lemma scan_rules_no_empty rules n line res :
  no_empty_entry res → no_empty_entry (scan_rules rules n line res).
Proof.
  revert res.
  induction rules as [|[name regex] rules IH]; intros res Hres; [done|].
  rewrite scan_rules_cons. by apply IH, record_matches_no_empty.
Qed.

Lemma PATTERNS_NoDup : NoDup PATTERNS.*1.
Proof. apply (bool_decide_unpack _). by vm_compute. Qed.

Lemma scan_lines_get n lines res (name : string) (regex : Re.regex) :
  (name, regex) ∈ PATTERNS →
  dd_get name (scan_lines n lines res) =
  dd_get name res ++ file_records n lines regex.
Proof.
  intros Hin. revert n res.
  induction lines as [|line lines IH]; intros n res; simpl.
  { by rewrite app_nil_r. }
  rewrite IH. change (scan_line n line res) with (scan_rules PATTERNS n line res).
  rewrite (scan_rules_get _ _ _ _ _ regex PATTERNS_NoDup Hin).
  by rewrite <- app_assoc.
Qed.

Lemma scan_lines_other n lines res (k : string) :
  k ∉ PATTERNS.*1 → scan_lines n lines res !! k = res !! k.
Proof.
  intros Hk. revert n res.
  induction lines as [|line lines IH]; intros n res; simpl; [done|].
  rewrite IH. by apply scan_rules_other.
Qed.

Lemma scan_lines_no_empty n lines res :
  no_empty_entry res → no_empty_entry (scan_lines n lines res).
Proof.
  revert n res. induction lines as [|line lines IH]; intros n res Hres; [done|].
  simpl. by apply IH, scan_rules_no_empty.
Qed.

Lemma scan_content_no_empty (content : string) :
  no_empty_entry (scan_content content).
Proof. apply scan_lines_no_empty. intros k v. by rewrite lookup_empty. Qed.

(** The entry of a rule in a scan result is what its lines contribute, and
    it is there exactly when this is not empty. *)
Lemma scan_content_lookup (content name : string) (regex : Re.regex) :
  (name, regex) ∈ PATTERNS →
  scan_content content !! name =
  match file_records 1 (split_nl content) regex with
  | [] => None
  | recs => Some recs
  end.
Proof.
  intros Hin.
  pose proof (scan_lines_get 1 (split_nl content) ∅ name regex Hin) as Hget.
  change (scan_lines 1 (split_nl content) ∅) with (scan_content content) in Hget.
  unfold dd_get at 2 in Hget. rewrite lookup_empty in Hget. simpl in Hget.
  destruct (file_records 1 (split_nl content) regex) as [|r recs] eqn:E.
  - apply dd_get_nil_lookup; [apply scan_content_no_empty | done].
  - unfold dd_get in Hget.
    destruct (scan_content content !! name) as [v|]; simpl in Hget; by subst.
Qed.

Lemma scan_content_keys (content k : string) (v : list Match) :
  scan_content content !! k = Some v → ∃ regex, (k, regex) ∈ PATTERNS.
Proof.
  intros Hk. destruct (decide (k ∈ PATTERNS.*1)) as [Hin|Hout].
  - apply list_elem_of_fmap in Hin as ([k' regex] & -> & Hin). by exists regex.
  - unfold scan_content in Hk. rewrite scan_lines_other in Hk by done.
    by rewrite lookup_empty in Hk.
Qed.

(** The records of a file, read line by line. *)
Lemma elem_of_file_records (r : Match) n lines (regex : Re.regex) :
  r ∈ file_records n lines regex ↔
  ∃ i line, lines !! i = Some line ∧ r ∈ line_records (n + i) line regex.
Proof.
  revert n. induction lines as [|l lines IH]; intros n; simpl.
  - split; [by intros ?%elem_of_nil | by intros (i & line & ? & _)].
  - rewrite elem_of_app, IH. split.
    + intros [Hr | (i & line & Hi & Hr)].
      * exists 0, l. by rewrite Nat.add_0_r.
      * exists (S i), line. by rewrite Nat.add_succ_r.
    + intros ([|i] & line & Hi & Hr); simpl in Hi.
      * left. injection Hi as ->. by rewrite Nat.add_0_r in Hr.
      * right. exists i, line. by rewrite Nat.add_succ_r in Hr.
Qed.


(** ** The aggregator *)

Lemma match_count_empty : match_count ∅ = 0.
Proof. unfold match_count. by rewrite map_to_list_empty. Qed.

Lemma match_count_insert (p : string) (ms : list Match)
    (fs : gmap string (list Match)) :
  fs !! p = None → match_count (<[p := ms]> fs) = length ms + match_count fs.
Proof. intros Hp. unfold match_count. by rewrite map_to_list_insert. Qed.


Lemma aggregate_count_empty : aggregate_count ∅ = 0.
Proof. unfold aggregate_count. by rewrite map_to_list_empty. Qed.

Lemma aggregate_count_insert (r : string) (fs : gmap string (list Match))
    (all : gmap string (gmap string (list Match))) :
  all !! r = None →
  aggregate_count (<[r := fs]> all) = match_count fs + aggregate_count all.
Proof. intros Hr. unfold aggregate_count. by rewrite map_to_list_insert. Qed.

Lemma aggregate_count_delete (r : string) (fs : gmap string (list Match))
    (all : gmap string (gmap string (list Match))) :
  all !! r = Some fs →
  aggregate_count all = match_count fs + aggregate_count (delete r all).
Proof.
  intros Hr. unfold aggregate_count.
  by rewrite <- (map_to_list_delete all r fs Hr).
Qed.

(** Storing the matches of a path not yet under the rule adds their number. *)
Lemma aggregate_count_set_entry (r p : string) (ms : list Match)
    (all : gmap string (gmap string (list Match))) :
  default ∅ (all !! r) !! p = None →
  aggregate_count (set_entry r p ms all) = aggregate_count all + length ms.
Proof.
  intros Hp. unfold set_entry. destruct (all !! r) as [fs|] eqn:Hr; simpl in *.
  - rewrite <- insert_delete_eq.
    rewrite aggregate_count_insert by apply lookup_delete_eq.
    rewrite (aggregate_count_delete r fs all Hr).
    rewrite match_count_insert by done. lia.
  - rewrite aggregate_count_insert by done.
    rewrite match_count_insert, match_count_empty by done. lia.
Qed.

Lemma merge_results_empty (p : string)
    (acc : gmap string (gmap string (list Match)) * nat) :
  merge_results p ∅ acc = acc.
Proof. unfold merge_results. by rewrite map_fold_empty. Qed.

(** The aggregate after one file: each rule of the scan result gets the
    file's matches under its path, the other rules are as before, and the
    total grows by the number of matches of the scan result. *)
Lemma merge_results_spec (p : string) (results : gmap string (list Match))
    (all : gmap string (gmap string (list Match))) (t : nat) :
  (∀ r, (merge_results p results (all, t)).1 !! r =
        match results !! r with
        | Some ms => Some (<[p := ms]> (default ∅ (all !! r)))
        | None => all !! r
        end)
  ∧ (merge_results p results (all, t)).2 = t + match_count results
  ∧ ((∀ r, default ∅ (all !! r) !! p = None) →
     aggregate_count (merge_results p results (all, t)).1 =
     aggregate_count all + match_count results).
Proof.
  unfold merge_results.
  apply (map_fold_weak_ind
    (λ acc (m : gmap string (list Match)),
       (∀ r, acc.1 !! r =
             match m !! r with
             | Some ms => Some (<[p := ms]> (default ∅ (all !! r)))
             | None => all !! r
             end)
       ∧ acc.2 = t + match_count m
       ∧ ((∀ r, default ∅ (all !! r) !! p = None) →
          aggregate_count acc.1 = aggregate_count all + match_count m))).
  - rewrite match_count_empty. split_and!; [|simpl; lia|simpl; lia].
    intros r. by rewrite lookup_empty.
  - intros i x m [a n] Hi (Hlk & Ht & Hcnt). simpl in *.
    rewrite match_count_insert by done. split_and!.
    + intros r. unfold set_entry. destruct (decide (i = r)) as [<-|Hne].
      * rewrite !lookup_insert_eq. by rewrite Hlk, Hi.
      * rewrite !lookup_insert_ne by done. apply Hlk.
    + lia.
    + intros Hfresh. rewrite aggregate_count_set_entry.
      * rewrite Hcnt by done. lia.
      * rewrite Hlk, Hi. apply Hfresh.
Qed.

(** ** The console *)

Lemma print_lines_stdout (lines : list string) (c : console) :
  stdout (print_lines lines c) = stdout c ++ lines.
Proof.
  unfold print_lines. revert c.
  induction lines as [|l lines IH]; intros c; simpl.
  - by rewrite app_nil_r.
  - rewrite IH. simpl. by rewrite <- app_assoc.
Qed.

Lemma print_lines_stderr (lines : list string) (c : console) :
  stderr (print_lines lines c) = stderr c.
Proof.
  unfold print_lines. revert c.
  induction lines as [|l lines IH]; intros c; simpl; [done|]. by rewrite IH.
Qed.

Lemma print_lines_app (l1 l2 : list string) (c : console) :
  print_lines (l1 ++ l2) c = print_lines l2 (print_lines l1 c).
Proof. apply foldl_app. Qed.

(** ** The traversal *)

(** One iteration, in one equation: the aggregator takes what the file
    hands over and the console takes the error line, if any. *)
Lemma walk_step_eq (base : string) (st : walk_state) (f : tsx_file) :
  walk_step base st f =
  mkWalk
    (merge_results (rel_path f) (file_results base f)
       (all_results st, total_issues st)).1
    (merge_results (rel_path f) (file_results base f)
       (all_results st, total_issues st)).2
    (print_lines (walk_errors base [f]) (con st)).
Proof.
  unfold walk_step, file_results, walk_errors. simpl.
  destruct st as [a t c]. simpl.
  destruct (should_ignore (base +:+ rel_path f)).
  { by rewrite merge_results_empty. }
  destruct (read_text f) as [content|e]; simpl.
  - destruct (decide (scan_content content = ∅)) as [->|Hne].
    + by rewrite merge_results_empty.
    + by destruct (merge_results _ _ _).
  - rewrite decide_True by done. by rewrite merge_results_empty.
Qed.

Lemma walk_errors_app (base : string) (l1 l2 : list tsx_file) :
  walk_errors base (l1 ++ l2) = walk_errors base l1 ++ walk_errors base l2.
Proof. apply flat_map_app. Qed.

Lemma walk_eq (base : string) (files : list tsx_file) (st : walk_state) :
  walk base files st =
  mkWalk (aggregate base files (all_results st, total_issues st)).1
         (aggregate base files (all_results st, total_issues st)).2
         (print_lines (walk_errors base files) (con st)).
Proof.
  unfold walk, aggregate. revert st.
  induction files as [|f files IH]; intros st.
  { by destruct st. }
  cbn [foldl]. rewrite IH, walk_step_eq. cbn [all_results total_issues con].
  rewrite <- surjective_pairing.
  change (f :: files) with ([f] ++ files).
  by rewrite walk_errors_app, print_lines_app.
Qed.

Lemma aggregate_app (base : string) (l1 l2 : list tsx_file)
    (acc : gmap string (gmap string (list Match)) * nat) :
  aggregate base (l1 ++ l2) acc = aggregate base l2 (aggregate base l1 acc).
Proof. apply foldl_app. Qed.

Lemma aggregate_snoc (base : string) (files : list tsx_file) (f : tsx_file)
    (acc : gmap string (gmap string (list Match)) * nat) :
  aggregate base (files ++ [f]) acc =
  merge_results (rel_path f) (file_results base f) (aggregate base files acc).
Proof. unfold aggregate. by rewrite foldl_snoc. Qed.

Lemma aggregate_cons (base : string) (files : list tsx_file) (f : tsx_file)
    (acc : gmap string (gmap string (list Match)) * nat) :
  aggregate base (f :: files) acc =
  aggregate base files
    (merge_results (rel_path f) (file_results base f) acc).
Proof. done. Qed.

(** A file that hands nothing over leaves no trace in the aggregate. *)
Lemma aggregate_skip (base : string) (l1 l2 : list tsx_file) (f : tsx_file)
    (acc : gmap string (gmap string (list Match)) * nat) :
  file_results base f = ∅ →
  aggregate base (l1 ++ f :: l2) acc = aggregate base (l1 ++ l2) acc.
Proof.
  intros Hf. by rewrite !aggregate_app, aggregate_cons, Hf, merge_results_empty.
Qed.

(** Where an entry of the report comes from. *)
Lemma aggregate_provenance (base : string) (files : list tsx_file)
    (r : string) (fs : gmap string (list Match)) :
  (aggregate base files (∅, 0)).1 !! r = Some fs →
  fs ≠ ∅ ∧
  ∀ p ms, fs !! p = Some ms →
    ∃ f, f ∈ files ∧ rel_path f = p ∧ file_results base f !! r = Some ms.
Proof.
  revert r fs. induction files as [|f files IH] using rev_ind; intros r fs.
  { simpl. by rewrite lookup_empty. }
  rewrite aggregate_snoc.
  destruct (aggregate base files (∅, 0)) as [a t] eqn:Ea. simpl in IH.
  destruct (merge_results_spec (rel_path f) (file_results base f) a t)
    as (Hlk & _ & _).
  rewrite Hlk. clear Hlk.
  assert (Hold : ∀ fs0, a !! r = Some fs0 → ∀ p ms, fs0 !! p = Some ms →
            ∃ g, g ∈ files ++ [f] ∧ rel_path g = p
                 ∧ file_results base g !! r = Some ms).
  { intros fs0 Hfs0 p ms Hp. destruct (IH r fs0 Hfs0) as [_ Hin].
    destruct (Hin p ms Hp) as (g & Hg & ? & ?). exists g.
    rewrite elem_of_app. auto. }
  destruct (file_results base f !! r) as [ms'|] eqn:Er.
  - intros [= <-]. split; [apply insert_non_empty|].
    intros p ms. destruct (decide (rel_path f = p)) as [<-|Hne].
    + rewrite lookup_insert_eq. intros [= <-]. exists f.
      rewrite elem_of_app, list_elem_of_singleton. auto.
    + rewrite lookup_insert_ne by done.
      destruct (a !! r) as [fs0|] eqn:E0; simpl.
      * by apply Hold.
      * by rewrite lookup_empty.
  - intros Hr. split; [by apply (IH r fs)|]. by apply Hold.
Qed.

(** With distinct paths the running total is the size of the report. *)
Lemma aggregate_total (base : string) (files : list tsx_file) :
  NoDup (rel_path <$> files) →
  (aggregate base files (∅, 0)).2 =
  aggregate_count (aggregate base files (∅, 0)).1.
Proof.
  induction files as [|f files IH] using rev_ind; intros Hnd.
  { simpl. by rewrite aggregate_count_empty. }
  rewrite fmap_app, NoDup_app in Hnd. destruct Hnd as (Hnd & Hfresh & _).
  rewrite aggregate_snoc.
  pose proof (aggregate_provenance base files) as Hprov.
  destruct (aggregate base files (∅, 0)) as [a t] eqn:Ea. simpl in *.
  destruct (merge_results_spec (rel_path f) (file_results base f) a t)
    as (_ & -> & ->).
  - rewrite IH by done. lia.
  - intros r. destruct (a !! r) as [fs0|] eqn:E0; simpl; [|apply lookup_empty].
    destruct (fs0 !! rel_path f) as [ms|] eqn:Ep; [|done].
    destruct (Hprov r fs0 E0) as [_ Hin].
    destruct (Hin _ _ Ep) as (g & Hg & Hpath & _).
    destruct (Hfresh (rel_path f)).
    + apply list_elem_of_fmap. by exists g.
    + simpl. apply list_elem_of_singleton. done.
Qed.

(** ** The order of the report *)

Global Instance key_le_total {V} : Total (@key_le V).
Proof. intros x y. unfold key_le. apply (total String.le). Qed.

Global Instance key_le_trans {V} : Transitive (@key_le V).
Proof. intros x y z. unfold key_le. apply (transitivity (R := String.le)). Qed.

Lemma str_le_ne_ltb (a b : string) :
  String.le a b → a ≠ b → String.ltb a b = true.
Proof.
  unfold String.le, String.leb, String.ltb. intros Hle Hne.
  destruct (String.compare a b) eqn:E; [|done|done].
  by apply String.compare_eq_iff in E.
Qed.

Lemma sorted_items_perm {V} (d : gmap string V) :
  sorted_items d ≡ₚ map_to_list d.
Proof. apply merge_sort_Permutation. Qed.

Lemma sorted_items_keys_NoDup {V} (d : gmap string V) :
  NoDup (sorted_items d).*1.
Proof. rewrite sorted_items_perm. apply NoDup_fst_map_to_list. Qed.

Lemma sorted_items_keys_sorted {V} (d : gmap string V) :
  StronglySorted (λ a b, String.ltb a b = true) (sorted_items d).*1.
Proof.
  pose proof (sorted_items_keys_NoDup d) as Hnd.
  assert (Hs : StronglySorted key_le (sorted_items d))
    by apply (StronglySorted_merge_sort _).
  induction Hs as [|x l Hs IH Hall]; simpl; [constructor|].
  rewrite fmap_cons, NoDup_cons in Hnd. destruct Hnd as [Hx Hnd].
  constructor; [by apply IH|].
  apply Forall_fmap, Forall_forall. intros y Hy. simpl.
  apply str_le_ne_ltb.
  - by apply (proj1 (Forall_forall _ _) Hall).
  - intros Heq. apply Hx. rewrite Heq. apply list_elem_of_fmap. by exists y.
Qed.

(** ** The whole run *)

Lemma main_eq (base : string) (files : list tsx_file) :
  main base files =
  mkWalk (aggregate base files (∅, 0)).1 (aggregate base files (∅, 0)).2
    (mkConsole
       (banner ++ walk_errors base files
        ++ report_details (aggregate base files (∅, 0)).1
        ++ report_summary (aggregate base files (∅, 0)).1
             (aggregate base files (∅, 0)).2)
       []).
Proof.
  unfold main. rewrite walk_eq. cbn [all_results total_issues con].
  f_equal. rewrite <- !print_lines_app.
  generalize (banner ++ walk_errors base files
        ++ report_details (aggregate base files (∅, 0)).1
        ++ report_summary (aggregate base files (∅, 0)).1
             (aggregate base files (∅, 0)).2).
  intros lines.
  pose proof (print_lines_stdout lines (mkConsole [] [])) as Hout.
  pose proof (print_lines_stderr lines (mkConsole [] [])) as Herr.
  destruct (print_lines lines (mkConsole [] [])) as [o e]. simpl in *.
  by subst.
Qed.


(** ** Lines that contribute nothing, and a single line that does *)

Lemma record_matches_silent n line name ms res :
  filter (λ m, suppressed line m = false) ms = [] →
  record_matches n line name ms res = res.
Proof.
  unfold record_matches. revert res.
  induction ms as [|m ms IH]; intros res; simpl; [done|].
  rewrite filter_cons. destruct (suppressed line m) eqn:E.
  - rewrite decide_False by done. apply IH.
  - by rewrite decide_True by done.
Qed.

Lemma scan_line_silent n line res : silent line → scan_line n line res = res.
Proof.
  unfold silent, scan_line. generalize PATTERNS. intros rules Hall.
  revert res. induction Hall as [|[name regex] rules Hk Hall IH]; intros res.
  - done.
  - rewrite scan_rules_cons, record_matches_silent by done. apply IH.
Qed.

Lemma scan_lines_silent n lines res :
  Forall silent lines → scan_lines n lines res = res.
Proof.
  intros Hall. revert n.
  induction Hall as [|l lines Hl Hall IH]; intros n; simpl; [done|].
  by rewrite scan_line_silent, IH.
Qed.

Lemma scan_lines_app n l1 l2 res :
  scan_lines n (l1 ++ l2) res =
  scan_lines (n + length l1) l2 (scan_lines n l1 res).
Proof.
  revert n res. induction l1 as [|l l1 IH]; intros n res; simpl.
  - by rewrite Nat.add_0_r.
  - by rewrite IH, Nat.add_succ_r.
Qed.

(** A file whose other lines are silent is scanned as its one line, at the
    position of that line. *)
Lemma scan_content_one_line (content line : string) (pre post : list string) :
  split_nl content = pre ++ line :: post →
  Forall silent pre → Forall silent post →
  scan_content content = scan_line (S (length pre)) line ∅.
Proof.
  intros Hsplit Hpre Hpost. unfold scan_content.
  rewrite Hsplit, scan_lines_app. simpl.
  by rewrite (scan_lines_silent _ pre), scan_lines_silent.
Qed.

Lemma silent_dec (line : string) :
  bool_decide (silent line) = true → silent line.
Proof. apply bool_decide_eq_true_1. Qed.

(** ** The shape of a match, atom by atom *)

Module ReShape.
Import Re.

Lemma match_nil (s m : string) : match_here [] s = Some m → m = "".
Proof. destruct s; simpl; congruence. Qed.

Lemma match_lit (c : ascii) (re : regex) (s m : string) :
  match_here (Lit c :: re) s = Some m →
  ∃ s' m', s = String c s' ∧ m = String c m' ∧ match_here re s' = Some m'.
Proof.
  destruct s as [|c' s]; simpl; [done|].
  destruct (Ascii.eqb_spec c' c) as [->|]; [|done].
  destruct (match_here re s) as [m'|] eqn:E; simpl; [|done].
  intros [= <-]. by exists s, m'.
Qed.

Lemma match_one (p : ascii → bool) (re : regex) (s m : string) :
  match_here (One p :: re) s = Some m →
  ∃ c s' m', s = String c s' ∧ p c = true ∧ m = String c m'
             ∧ match_here re s' = Some m'.
Proof.
  destruct s as [|c s]; simpl; [done|].
  destruct (p c) eqn:Hp; [|done].
  destruct (match_here re s) as [m'|] eqn:E; simpl; [|done].
  intros [= <-]. by exists c, s, m'.
Qed.

(** A repetition takes a non-empty run of characters of its class. *)
Lemma match_many1 (p : ascii → bool) (re : regex) (s m : string) :
  match_here (Many1 p :: re) s = Some m →
  ∃ w s' m', s = w +:+ s' ∧ m = w +:+ m' ∧ w ≠ "" ∧ str_forall p w = true
             ∧ match_here re s' = Some m'.
Proof.
  revert m. induction s as [|c s IH]; intros m; [done|].
  cbn [match_here]. destruct (p c) eqn:Hp; [|done].
  destruct (match_here (Many1 p :: re) s) as [m1|] eqn:E1.
  - simpl. intros [= <-].
    destruct (IH m1 eq_refl) as (w & s' & m' & -> & -> & _ & Hw & Hm).
    exists (String c w), s', m'. simpl. by rewrite Hp, Hw.
  - destruct (match_here re s) as [m'|] eqn:E2; simpl; [|done].
    intros [= <-]. exists (String c ""), s, m'. simpl. by rewrite Hp.
Qed.

(** A match of the first rule: [bg-], a word, [-50] and one delimiter. *)
Lemma match_bg50_shape (s m : string) :
  match_here bg50_re s = Some m →
  ∃ w d, m = "bg-" +:+ w +:+ "-50" +:+ String d ""
         ∧ w ≠ "" ∧ str_forall is_word w = true ∧ is_delim d = true.
Proof.
  unfold bg50_re. cbn [lit app].
  intros (s1 & m1 & -> & -> & H)%match_lit.
  apply match_lit in H as (s2 & m2 & -> & -> & H).
  apply match_lit in H as (s3 & m3 & -> & -> & H).
  apply match_many1 in H as (w & s4 & m4 & -> & -> & Hw & Hall & H).
  apply match_lit in H as (s5 & m5 & -> & -> & H).
  apply match_lit in H as (s6 & m6 & -> & -> & H).
  apply match_lit in H as (s7 & m7 & -> & -> & H).
  apply match_one in H as (d & s8 & m8 & -> & Hd & -> & H).
  apply match_nil in H as ->.
  by exists w, d.
Qed.

(** The tail [-50] and a delimiter does not match a word followed by [-50]
    and the end of the line, however the repetition splits the word. *)
Lemma match_bg50_tail_at_end (w : string) :
  str_forall is_word w = true →
  match_here (Many1 is_word :: lit "-50" ++ [One is_delim]) (w +:+ "-50")
  = None.
Proof.
  induction w as [|c w IH]; intros Hw; [done|].
  simpl in Hw. apply andb_true_iff in Hw as [Hc Hw].
  change (String c w +:+ "-50") with (String c (w +:+ "-50")).
  cbn [match_here]. rewrite Hc, IH by done.
  destruct w as [|c' w]; [done|].
  simpl in Hw. apply andb_true_iff in Hw as [Hc' _].
  change (String c' w +:+ "-50") with (String c' (w +:+ "-50")).
  cbn [match_here lit app].
  destruct (Ascii.eqb_spec c' "-") as [->|]; [done|done].
Qed.

Lemma match_bg50_at_end (w : string) :
  str_forall is_word w = true →
  match_here bg50_re ("bg-" +:+ w +:+ "-50") = None.
Proof.
  intros Hw. unfold bg50_re.
  change ("bg-" +:+ w +:+ "-50")
    with (String "b" (String "g" (String "-" (w +:+ "-50")))).
  cbn [lit app match_here Ascii.eqb Bool.eqb].
  change (match_here (Many1 is_word :: lit "-50" ++ [One is_delim])
            (w +:+ "-50"))
    with (match_here
            [Many1 is_word; Lit "-"; Lit "5"; Lit "0"; One is_delim]
            (w +:+ "-50")) in *.
  pose proof (match_bg50_tail_at_end w Hw) as H.
  cbn [lit app] in H. by rewrite H.
Qed.

End ReShape.

(** ** Records and their lines *)

Lemma filter_all {A} (P : A → Prop) `{!∀ x, Decision (P x)} (l : list A) :
  Forall P l → filter P l = l.
Proof.
  induction 1 as [|x l Hx Hl IH]; [done|].
  by rewrite filter_cons_True, IH.
Qed.

Lemma filter_none {A} (P : A → Prop) `{!∀ x, Decision (P x)} (l : list A) :
  Forall (λ x, ¬ P x) l → filter P l = [].
Proof.
  induction 1 as [|x l Hx Hl IH]; [done|].
  by rewrite filter_cons_False.
Qed.

Lemma elem_of_line_records (r : Match) n line (regex : Re.regex) :
  r ∈ line_records n line regex ↔
  ∃ m, r = mkMatch n m (context_of line) ∧ m ∈ Re.findall regex line
       ∧ suppressed line m = false.
Proof.
  unfold line_records, kept. rewrite list_elem_of_fmap.
  setoid_rewrite list_elem_of_filter. split.
  - intros (m & -> & Hs & Hm). by exists m.
  - intros (m & -> & Hm & Hs). by exists m.
Qed.

Lemma file_records_line_ge (r : Match) n lines (regex : Re.regex) :
  r ∈ file_records n lines regex → n ≤ m_line r.
Proof.
  intros (i & line & _ & (m & -> & _)%elem_of_line_records)%elem_of_file_records.
  simpl. lia.
Qed.

(** The records of one physical line, picked out of those of the file. *)
Lemma file_records_filter_line n lines (regex : Re.regex) i line :
  lines !! i = Some line →
  filter (λ r, m_line r = n + i) (file_records n lines regex) =
  line_records (n + i) line regex.
Proof.
  revert n i. induction lines as [|l lines IH]; intros n i Hi; [done|].
  simpl. rewrite filter_app. destruct i as [|i]; simpl in Hi.
  - injection Hi as ->. rewrite Nat.add_0_r.
    rewrite filter_all, filter_none; [by rewrite app_nil_r| |].
    + apply Forall_forall. intros r Hr%file_records_line_ge. lia.
    + apply Forall_forall. by intros r (m & -> & _)%elem_of_line_records.
  - rewrite filter_none.
    + rewrite Nat.add_succ_r. by apply (IH (S n) i).
    + apply Forall_forall. intros r (m & -> & _)%elem_of_line_records.
      simpl. lia.
Qed.

Lemma PATTERNS_functional (name : string) (re1 re2 : Re.regex) :
  (name, re1) ∈ PATTERNS → (name, re2) ∈ PATTERNS → re1 = re2.
Proof.
  unfold PATTERNS. rewrite !elem_of_cons, !elem_of_nil.
  unfold bg50_name, dark_bg_name, dark_hover_name, dark_border_name.
  intros [?|[?|[?|[?|[]]]]] [?|[?|[?|[?|[]]]]]; congruence.
Qed.

(** * The claims about the scanner *)

(** Where a recorded match comes from: its rule, its line, its text. *)
Lemma scan_content_record (content name : string) (recs : list Match)
    (r : Match) :
  scan_content content !! name = Some recs → r ∈ recs →
  ∃ regex i line,
    (name, regex) ∈ PATTERNS ∧ split_nl content !! i = Some line
    ∧ r = mkMatch (S i) (m_match r) (context_of line)
    ∧ m_match r ∈ Re.findall regex line
    ∧ suppressed line (m_match r) = false.
Proof.
  intros Hrecs Hr.
  destruct (scan_content_keys _ _ _ Hrecs) as [regex Hin].
  rewrite (scan_content_lookup _ _ _ Hin) in Hrecs.
  assert (Hfile : r ∈ file_records 1 (split_nl content) regex).
  { destruct (file_records 1 (split_nl content) regex); by simplify_eq. }
  apply elem_of_file_records in Hfile as (i & line & Hi & Hline).
  apply elem_of_line_records in Hline as (m & -> & Hm & Hs).
  by exists regex, i, line.
Qed.

Lemma scan_line_bg50_sample (n : nat) :
  scan_line n bg50_sample ∅ =
  {[ bg50_name := [mkMatch n "bg-red-50 " (context_of bg50_sample)] ]}.
Proof. by vm_compute. Qed.

Lemma scan_line_dark_bg_sample (n : nat) :
  scan_line n dark_bg_sample ∅ =
  {[ dark_bg_name := [mkMatch n dark_bg_sample (context_of dark_bg_sample)] ]}.
Proof. by vm_compute. Qed.

Lemma dd_get_scan_content_at (content name : string) (regex : Re.regex) :
  (name, regex) ∈ PATTERNS →
  dd_get name (scan_content content) =
  file_records 1 (split_nl content) regex.
Proof.
  intros Hin. unfold scan_content.
  by rewrite (scan_lines_get _ _ _ _ regex).
Qed.

Lemma file_records_imap n lines (regex : Re.regex) :
  file_records n lines regex =
  mjoin (imap (λ i line, line_records (n + i) line regex) lines).
Proof.
  revert n. induction lines as [|l lines IH]; intros n; [done|].
  simpl. rewrite Nat.add_0_r, IH. do 2 f_equal.
  apply imap_ext. intros i x _. simpl. by rewrite Nat.add_succ_r.
Qed.

(** C5: the matches recorded for a rule are, line after line of the text
    split at its newlines, the texts the rule's pattern finds in the line
    and that survive suppression, each with the position of that line
    counted from 1; so the records numbered [i+1] are exactly those of the
    line at index [i], also when the same line occurs more than once.  Every
    record therefore has a number of at least 1 that is the position of a
    line in which the pattern finds its text; and a file in which only the
    line [className="bg-red-50 p-2"] contributes yields exactly one match,
    under the -50 rule, with text [bg-red-50 ] (delimiter included) and that
    line's position as its number. *)
Theorem C5_line_numbers_are_physical :
  (∀ (content name : string) (regex : Re.regex),
     (name, regex) ∈ PATTERNS →
     dd_get name (scan_content content) =
     mjoin (imap (λ i line,
                    (λ m, mkMatch (S i) m (context_of line))
                      <$> kept line regex)
                 (split_nl content)))
  ∧ (∀ (content name : string) (regex : Re.regex) (i : nat) (line : string),
       (name, regex) ∈ PATTERNS →
       split_nl content !! i = Some line →
       filter (λ r, m_line r = S i) (dd_get name (scan_content content)) =
       (λ m, mkMatch (S i) m (context_of line)) <$> kept line regex)
  ∧ (∀ (content name : string) (recs : list Match) (r : Match),
       scan_content content !! name = Some recs → r ∈ recs →
       1 ≤ m_line r ∧
       ∃ regex line,
         (name, regex) ∈ PATTERNS
         ∧ split_nl content !! (m_line r - 1) = Some line
         ∧ m_match r ∈ Re.findall regex line
         ∧ str_in (m_match r) line = true)
  ∧ (∀ (content : string) (pre post : list string),
       split_nl content = pre ++ bg50_sample :: post →
       Forall silent pre → Forall silent post →
       scan_content content =
       {[ bg50_name :=
            [mkMatch (S (length pre)) "bg-red-50 " (context_of bg50_sample)] ]}).
Proof.
  split_and!.
  - intros content name regex Hin.
    rewrite (dd_get_scan_content_at _ _ _ Hin), file_records_imap.
    done.
  - intros content name regex i line Hin Hi.
    rewrite (dd_get_scan_content_at _ _ _ Hin).
    by rewrite (file_records_filter_line 1 _ _ i line Hi).
  - intros content name recs r Hrecs Hr.
    destruct (scan_content_record _ _ _ _ Hrecs Hr)
      as (regex & i & line & Hin & Hi & -> & Hm & _).
    simpl in *. split; [lia|]. exists regex, line.
    rewrite Nat.sub_0_r. split_and!; [done..|].
    by eapply ReFacts.findall_str_in.
  - intros content pre post Hsplit Hpre Hpost.
    rewrite (scan_content_one_line _ _ _ _ Hsplit Hpre Hpost).
    apply scan_line_bg50_sample.
Qed.

(** The same matching line on lines 1 and 3: the records carry 1 and 3. *)
Lemma C5_witness :
  dd_get dark_bg_name (scan_content repeated_sample) =
  [ mkMatch 1 "dark:bg-a-1/2" "dark:bg-a-1/2";
    mkMatch 3 "dark:bg-a-1/2" "dark:bg-a-1/2" ].
Proof.
  refine (proj1 C5_line_numbers_are_physical repeated_sample dark_bg_name
            (opacity_re "dark:bg-") _).
  unfold PATTERNS. apply list_elem_of_further, list_elem_of_here.
Defined.

(** C6: a file in which only the line [dark:bg-blue-900/50] contributes
    yields exactly one match in its scan result, under the dark background
    opacity rule and no other, with that text. *)
Theorem C6_dark_bg_example (content : string) (pre post : list string) :
  split_nl content = pre ++ dark_bg_sample :: post →
  Forall silent pre → Forall silent post →
  scan_content content =
  {[ dark_bg_name :=
       [mkMatch (S (length pre)) "dark:bg-blue-900/50"
          (context_of dark_bg_sample)] ]}.
Proof.
  intros Hsplit Hpre Hpost.
  rewrite (scan_content_one_line _ _ _ _ Hsplit Hpre Hpost).
  apply scan_line_dark_bg_sample.
Qed.

(** The file that is just this line. *)
Lemma C6_witness :
  scan_content "dark:bg-blue-900/50" =
  {[ dark_bg_name :=
       [mkMatch 1 "dark:bg-blue-900/50" "dark:bg-blue-900/50"] ]}.
Proof.
  apply (C6_dark_bg_example "dark:bg-blue-900/50" [] []).
  - reflexivity.
  - constructor.
  - constructor.
Defined.

(** C10: every text the -50 rule finds in a line, and so every text recorded
    under it, is [bg-], a non-empty word, [-50] and then one delimiter:
    whitespace, a double quote, a backtick or a slash; an occurrence that
    runs to the end of its line is a match of no rule, and the line
    [bg-red-50] on its own gives an empty scan result. *)
Theorem C10_bg50_needs_delimiter :
  (∀ (line m : string),
     m ∈ Re.findall bg50_re line →
     ∃ w d, m = "bg-" +:+ w +:+ "-50" +:+ String d ""
            ∧ w ≠ "" ∧ str_forall is_word w = true ∧ is_delim d = true)
  ∧ (∀ (content : string) (recs : list Match) (r : Match),
       scan_content content !! bg50_name = Some recs → r ∈ recs →
       ∃ w d, m_match r = "bg-" +:+ w +:+ "-50" +:+ String d ""
              ∧ w ≠ "" ∧ str_forall is_word w = true ∧ is_delim d = true)
  ∧ (∀ d : ascii,
       is_delim d = true ↔
       is_space d = true ∨ String d "" = dq ∨ d = "`"%char ∨ d = "/"%char)
  ∧ (∀ (w name : string) (regex : Re.regex),
       str_forall is_word w = true → (name, regex) ∈ PATTERNS →
       Re.match_here regex ("bg-" +:+ w +:+ "-50") = None)
  ∧ scan_content "bg-red-50" = ∅.
Proof.
  assert (Hshape : ∀ line m : string,
     m ∈ Re.findall bg50_re line →
     ∃ w d, m = "bg-" +:+ w +:+ "-50" +:+ String d ""
            ∧ w ≠ "" ∧ str_forall is_word w = true ∧ is_delim d = true).
  { intros line m (pre & suf & _ & Hm)%ReFacts.findall_elem.
    by apply ReShape.match_bg50_shape in Hm. }
  split_and!.
  - exact Hshape.
  - intros content recs r Hrecs Hr.
    destruct (scan_content_record _ _ _ _ Hrecs Hr)
      as (regex & i & line & Hin & _ & _ & Hm & _).
    assert (regex = bg50_re) as ->.
    { apply (PATTERNS_functional bg50_name); [done|].
      unfold PATTERNS. apply elem_of_cons. by left. }
    by apply (Hshape line).
  - intros d. unfold is_delim, dq. rewrite !orb_true_iff.
    rewrite !Ascii.eqb_eq. split.
    + intros [[[?| ->]| ->]| ->]; auto.
    + intros [?|[Hd|[Hd|Hd]]]; simplify_eq; auto.
  - intros w name regex Hw. unfold PATTERNS.
    rewrite !elem_of_cons, elem_of_nil.
    intros [[= -> ->]|[[= -> ->]|[[= -> ->]|[[= -> ->]|[]]]]];
      [by apply ReShape.match_bg50_at_end | done..].
  - by vm_compute.
Qed.

(** The occurrence [bg-red-50] with nothing after it. *)
Lemma C10_witness : Re.match_here bg50_re "bg-red-50" = None.
Proof.
  apply (proj1 (proj2 (proj2 (proj2 C10_bg50_needs_delimiter)))
           "red" bg50_name).
  - reflexivity.
  - unfold PATTERNS. apply list_elem_of_here.
Defined.

(** For one file: a rule is a key of a scan result only with the matches
    that survived suppression, and there is at least one. *)
Lemma scan_content_entry (content name : string) (recs : list Match) :
  scan_content content !! name = Some recs →
  recs ≠ [] ∧
  ∃ regex, (name, regex) ∈ PATTERNS
           ∧ recs = file_records 1 (split_nl content) regex.
Proof.
  intros Hrecs. split; [by eapply scan_content_no_empty|].
  destruct (scan_content_keys _ _ _ Hrecs) as [regex Hin].
  exists regex. split; [done|].
  rewrite (scan_content_lookup _ _ _ Hin) in Hrecs.
  destruct (file_records 1 (split_nl content) regex); by simplify_eq.
Qed.

(** What a file hands over is a scan result of a file that is neither
    excluded nor unreadable. *)
Lemma file_results_lookup (base : string) (f : tsx_file) (r : string)
    (ms : list Match) :
  file_results base f !! r = Some ms →
  should_ignore (base +:+ rel_path f) = false
  ∧ ∃ content, read_text f = ReadOk content
               ∧ scan_content content !! r = Some ms.
Proof.
  unfold file_results.
  destruct (should_ignore (base +:+ rel_path f)).
  { by rewrite lookup_empty. }
  destruct (read_text f) as [content|e].
  - intros Hr. split; [done|]. by exists content.
  - by rewrite lookup_empty.
Qed.

(** C9: a rule is a key of a scan result only with a non-empty sequence of
    matches, those that survived suppression; a rule of the aggregate holds
    at least one file, and a file under a rule holds the non-empty sequence
    that the scan of a file of that path, neither excluded nor unreadable,
    gave for the rule. *)
Theorem C9_no_empty_entries :
  (∀ (content name : string) (recs : list Match),
     scan_content content !! name = Some recs →
     recs ≠ [] ∧
     ∃ regex, (name, regex) ∈ PATTERNS
              ∧ recs = file_records 1 (split_nl content) regex)
  ∧ (∀ (base : string) (files : list tsx_file) (r : string)
       (fs : gmap string (list Match)),
       all_results (main base files) !! r = Some fs →
       fs ≠ ∅ ∧
       ∀ p ms, fs !! p = Some ms →
         ms ≠ [] ∧
         ∃ f content,
           f ∈ files ∧ rel_path f = p
           ∧ should_ignore (base +:+ p) = false
           ∧ read_text f = ReadOk content
           ∧ scan_content content !! r = Some ms).
Proof.
  split; [exact scan_content_entry|].
  intros base files r fs. rewrite main_eq. cbn [all_results].
  intros [Hne Hin]%aggregate_provenance. split; [done|].
  intros p ms Hp. destruct (Hin p ms Hp) as (f & Hf & <- & Hres).
  apply file_results_lookup in Hres as (Hign & content & Hread & Hscan).
  split; [by eapply scan_content_no_empty|]. by exists f, content.
Qed.

(** One readable file with one match: its entry and where it comes from. *)
Lemma C9_witness :
  [mkMatch 1 dark_bg_sample dark_bg_sample] ≠ [] ∧
  ∃ f content,
    f ∈ [readable_a] ∧ rel_path f = "app/a.tsx"
    ∧ should_ignore ("/p/" +:+ "app/a.tsx") = false
    ∧ read_text f = ReadOk content
    ∧ scan_content content !! dark_bg_name
      = Some [mkMatch 1 dark_bg_sample dark_bg_sample].
Proof.
  refine (proj2 (proj2 C9_no_empty_entries "/p/" [readable_a] dark_bg_name
                   {[ "app/a.tsx" := [mkMatch 1 dark_bg_sample dark_bg_sample] ]}
                   _) "app/a.tsx" _ _).
  - vm_compute. reflexivity.
  - vm_compute. reflexivity.
Defined.

(** Without the marker nothing is set aside. *)
Lemma kept_without_marker (line : string) (regex : Re.regex) :
  str_in "focus:ring" line = false → kept line regex = Re.findall regex line.
Proof.
  intros Hno. unfold kept. apply filter_all, Forall_forall.
  intros m _. unfold suppressed. by rewrite Hno.
Qed.

Lemma dd_get_scan_content (content name : string) (regex : Re.regex) :
  (name, regex) ∈ PATTERNS →
  dd_get name (scan_content content) =
  file_records 1 (split_nl content) regex.
Proof. intros Hin. unfold scan_content. by rewrite (scan_lines_get _ _ _ _ regex). Qed.

Lemma file_results_readable (base p content : string) :
  should_ignore (base +:+ p) = false →
  file_results base (mkFile p (ReadOk content)) = scan_content content.
Proof. unfold file_results. simpl. by intros ->. Qed.

Lemma merge_results_singleton (p r : string) (ms : list Match) :
  merge_results p {[ r := ms ]} (∅, 0) = ({[ r := {[ p := ms ]} ]}, length ms).
Proof.
  unfold merge_results. rewrite map_fold_singleton. simpl.
  unfold set_entry. by rewrite lookup_empty.
Qed.

(** C3: on a line that contains [focus:ring], the matches recorded for a
    rule are the texts the rule finds in the line without those that contain
    [-900/50], in the order found; a file that is the line
    [focus:ring-blue-900/50] has an empty scan result and is not reported,
    while a second file that is the line [dark:hover:bg-blue-900/50] is
    reported under the hover rule. *)
Theorem C3_focus_ring_suppression :
  (∀ (content name : string) (regex : Re.regex) (i : nat) (line : string),
     (name, regex) ∈ PATTERNS →
     split_nl content !! i = Some line →
     str_in "focus:ring" line = true →
     filter (λ r, m_line r = S i) (dd_get name (scan_content content)) =
     (λ m, mkMatch (S i) m (context_of line)) <$>
       filter (λ m, str_in "-900/50" m = false) (Re.findall regex line))
  ∧ scan_content focus_ring_sample = ∅
  ∧ (∀ (base p1 p2 : string),
       should_ignore (base +:+ p1) = false →
       should_ignore (base +:+ p2) = false →
       all_results
         (main base [mkFile p1 (ReadOk focus_ring_sample);
                     mkFile p2 (ReadOk dark_hover_sample)]) =
       {[ dark_hover_name :=
            {[ p2 := [mkMatch 1 "dark:hover:bg-blue-900/50"
                        (context_of dark_hover_sample)] ]} ]}).
Proof.
  split_and!.
  - intros content name regex i line Hin Hi Hfocus.
    rewrite (dd_get_scan_content _ _ _ Hin).
    rewrite (file_records_filter_line 1 _ _ i line Hi). simpl.
    unfold line_records, kept. f_equal. apply list_filter_iff.
    intros m. unfold suppressed. by rewrite Hfocus.
  - by vm_compute.
  - intros base p1 p2 H1 H2. rewrite main_eq. cbn [all_results].
    unfold aggregate. cbn [foldl rel_path].
    rewrite !file_results_readable by done.
    assert (scan_content focus_ring_sample = ∅) as -> by by vm_compute.
    assert (scan_content dark_hover_sample =
            {[ dark_hover_name :=
                 [mkMatch 1 "dark:hover:bg-blue-900/50"
                    (context_of dark_hover_sample)] ]}) as -> by by vm_compute.
    by rewrite merge_results_empty, merge_results_singleton.
Qed.

(** A focus ring beside two dark backgrounds: the one with the suffix is
    dropped and the other is kept. *)
Lemma C3_witness :
  filter (λ r, m_line r = 1) (dd_get dark_bg_name (scan_content mixed_sample)) =
  [mkMatch 1 "dark:bg-red-800/40" (context_of mixed_sample)].
Proof.
  apply (proj1 C3_focus_ring_suppression mixed_sample dark_bg_name
           (opacity_re "dark:bg-") 0 mixed_sample).
  - unfold PATTERNS. apply list_elem_of_further, list_elem_of_here.
  - reflexivity.
  - reflexivity.
Defined.

(** * The claims about the traversal *)

Lemma file_results_ignored (base : string) (f : tsx_file) :
  should_ignore (base +:+ rel_path f) = true → file_results base f = ∅.
Proof. unfold file_results. by intros ->. Qed.

Lemma file_results_unreadable (base : string) (f : tsx_file) (e : string) :
  read_text f = ReadErr e → file_results base f = ∅.
Proof.
  unfold file_results. intros ->.
  by destruct (should_ignore (base +:+ rel_path f)).
Qed.

(** A path whose files hand nothing over is under no rule of the report. *)
Lemma aggregate_absent (base : string) (files : list tsx_file) (p : string) :
  (∀ g, g ∈ files → rel_path g = p → file_results base g = ∅) →
  ∀ r fs, (aggregate base files (∅, 0)).1 !! r = Some fs → fs !! p = None.
Proof.
  intros Hnone r fs [_ Hin]%aggregate_provenance.
  destruct (fs !! p) as [ms|] eqn:Ep; [|done].
  destruct (Hin p ms Ep) as (g & Hg & Hpath & Hres).
  rewrite (Hnone g Hg Hpath) in Hres. by rewrite lookup_empty in Hres.
Qed.

Lemma aggregate_absent_cons (base : string) (l1 l2 : list tsx_file)
    (f : tsx_file) :
  file_results base f = ∅ →
  (∀ g, g ∈ l1 ++ l2 → rel_path g ≠ rel_path f) →
  ∀ r fs, (aggregate base (l1 ++ f :: l2) (∅, 0)).1 !! r = Some fs →
          fs !! rel_path f = None.
Proof.
  intros Hf Hother. apply aggregate_absent. intros g Hg Hpath.
  apply elem_of_app in Hg as [Hg|[->|Hg]%elem_of_cons]; [|done|].
  - destruct (Hother g); [apply elem_of_app; by left | done].
  - destruct (Hother g); [apply elem_of_app; by right | done].
Qed.

Lemma walk_errors_unreadable (base : string) (f : tsx_file) (e : string) :
  should_ignore (base +:+ rel_path f) = false → read_text f = ReadErr e →
  walk_errors base [f] = [error_line (base +:+ rel_path f) e].
Proof. unfold walk_errors. simpl. by intros -> ->. Qed.

Lemma walk_errors_ignored (base : string) (f : tsx_file) :
  should_ignore (base +:+ rel_path f) = true → walk_errors base [f] = [].
Proof. unfold walk_errors. simpl. by intros ->. Qed.

(** C1: the scan of a file whose read fails prints one line, which names
    the file, and returns the empty result; the report and the total of the
    run are those of the run without the file, whose output it extends by
    that one line; and the file is under no rule of the report when no other
    file has its path. *)
Theorem C1_unreadable_file_is_isolated (base : string)
    (l1 l2 : list tsx_file) (f : tsx_file) (e : string) :
  read_text f = ReadErr e →
  should_ignore (base +:+ rel_path f) = false →
  (∀ c, find_patterns_in_file (base +:+ rel_path f) (read_text f) c =
        (∅, mkConsole (stdout c ++ [error_line (base +:+ rel_path f) e])
              (stderr c)))
  ∧ str_in (base +:+ rel_path f) (error_line (base +:+ rel_path f) e) = true
  ∧ all_results (main base (l1 ++ f :: l2)) =
    all_results (main base (l1 ++ l2))
  ∧ total_issues (main base (l1 ++ f :: l2)) =
    total_issues (main base (l1 ++ l2))
  ∧ (∃ before after,
       stdout (con (main base (l1 ++ l2))) = before ++ after
       ∧ stdout (con (main base (l1 ++ f :: l2))) =
         before ++ error_line (base +:+ rel_path f) e :: after
       ∧ before = banner ++ walk_errors base l1)
  ∧ ((∀ g, g ∈ l1 ++ l2 → rel_path g ≠ rel_path f) →
     ∀ r fs, all_results (main base (l1 ++ f :: l2)) !! r = Some fs →
             fs !! rel_path f = None).
Proof.
  intros Hread Hign.
  pose proof (file_results_unreadable base f e Hread) as Hnone.
  split_and!.
  - intros c. by rewrite Hread.
  - unfold error_line. apply (str_in_infix _ "Error reading ").
  - rewrite !main_eq. cbn [all_results]. by rewrite aggregate_skip.
  - rewrite !main_eq. cbn [total_issues]. by rewrite aggregate_skip.
  - rewrite !main_eq. cbn [con stdout]. rewrite aggregate_skip by done.
    exists (banner ++ walk_errors base l1). eexists. split_and!; [|  |done].
    + rewrite walk_errors_app, <- !app_assoc. reflexivity.
    + change (f :: l2) with ([f] ++ l2).
      rewrite !walk_errors_app, (walk_errors_unreadable base f e) by done.
      by rewrite <- !app_assoc.
  - intros Hother r fs. rewrite main_eq. cbn [all_results].
    by apply aggregate_absent_cons.
Qed.

(** An unreadable file between two readable ones. *)
Lemma C1_witness :
  all_results (main "/p/" [readable_a; unreadable_b; readable_c]) =
  all_results (main "/p/" [readable_a; readable_c]).
Proof.
  apply (C1_unreadable_file_is_isolated "/p/" [readable_a] [readable_c]
           unreadable_b "denied").
  - reflexivity.
  - vm_compute. reflexivity.
Defined.

Lemma should_ignore_true (path : string) :
  should_ignore path = true ↔
  ∃ pattern, pattern ∈ IGNORE_PATTERNS ∧ Re.search pattern path = true.
Proof.
  unfold should_ignore. rewrite existsb_exists.
  by setoid_rewrite list_elem_of_In.
Qed.

(** The exclusion filter is a substring test on the path. *)
Lemma should_ignore_substring (path : string) :
  should_ignore path =
  str_in "node_modules" path || str_in ".next" path || str_in "dist" path
  || str_in "lib/colors.ts" path || str_in "tailwind.config" path.
Proof.
  unfold should_ignore, IGNORE_PATTERNS. cbn [existsb].
  rewrite !ReFacts.search_lit. by rewrite orb_false_r, !orb_assoc.
Qed.

(** C2: a file whose path an exclusion pattern matches is skipped: its
    iteration leaves the state as it was, without reading the file or
    printing; the whole run is the run without the file, whatever its text;
    and the file is under no rule of the report when no other file has its
    path. *)
Theorem C2_excluded_file_is_skipped (base : string) (l1 l2 : list tsx_file)
    (f : tsx_file) (pattern : Re.regex) :
  pattern ∈ IGNORE_PATTERNS →
  Re.search pattern (base +:+ rel_path f) = true →
  should_ignore (base +:+ rel_path f) = true
  ∧ (∀ st, walk_step base st f = st)
  ∧ main base (l1 ++ f :: l2) = main base (l1 ++ l2)
  ∧ ((∀ g, g ∈ l1 ++ l2 → rel_path g ≠ rel_path f) →
     ∀ r fs, all_results (main base (l1 ++ f :: l2)) !! r = Some fs →
             fs !! rel_path f = None).
Proof.
  intros Hin Hsearch.
  assert (Hign : should_ignore (base +:+ rel_path f) = true).
  { apply should_ignore_true. by exists pattern. }
  pose proof (file_results_ignored base f Hign) as Hnone.
  split_and!.
  - done.
  - intros st. unfold walk_step. by rewrite Hign.
  - rewrite !main_eq, aggregate_skip by done. do 3 f_equal.
    change (f :: l2) with ([f] ++ l2).
    by rewrite !walk_errors_app, walk_errors_ignored.
  - intros Hother r fs. rewrite main_eq. cbn [all_results].
    by apply aggregate_absent_cons.
Qed.

(** A file under [node_modules] whose text matches a rule. *)
Lemma C2_witness :
  main "/p/" [readable_a; excluded_d; readable_c] =
  main "/p/" [readable_a; readable_c].
Proof.
  apply (C2_excluded_file_is_skipped "/p/" [readable_a] [readable_c]
           excluded_d (Re.lit "node_modules")).
  - unfold IGNORE_PATTERNS. apply list_elem_of_here.
  - vm_compute. reflexivity.
Defined.

(** * The claims about the output *)

Lemma elem_of_walk_errors (base : string) (files : list tsx_file)
    (f : tsx_file) (e : string) :
  f ∈ files → should_ignore (base +:+ rel_path f) = false →
  read_text f = ReadErr e →
  error_line (base +:+ rel_path f) e ∈ walk_errors base files.
Proof.
  intros Hf Hign Hread. unfold walk_errors. apply list_elem_of_In, in_flat_map.
  exists f. split; [by apply list_elem_of_In|].
  rewrite Hign, Hread. by left.
Qed.

Lemma main_stdout (base : string) (files : list tsx_file) :
  stdout (con (main base files)) =
  banner ++ walk_errors base files
  ++ report_details (all_results (main base files))
  ++ report_summary (all_results (main base files))
       (total_issues (main base files)).
Proof. by rewrite main_eq. Qed.

Lemma main_stderr (base : string) (files : list tsx_file) :
  stderr (con (main base files)) = [].
Proof. by rewrite main_eq. Qed.

(** C4, as the code has it: nothing is ever written to standard error;
    standard output holds the banner, then the error line of every file that
    was scanned and could not be read, in traversal order, then the report. *)
Theorem C4_everything_goes_to_stdout :
  ∀ (base : string) (files : list tsx_file),
    stderr (con (main base files)) = []
    ∧ stdout (con (main base files)) =
      banner ++ walk_errors base files
      ++ report_details (all_results (main base files))
      ++ report_summary (all_results (main base files))
           (total_issues (main base files))
    ∧ (∀ f e, f ∈ files → should_ignore (base +:+ rel_path f) = false →
              read_text f = ReadErr e →
              error_line (base +:+ rel_path f) e
              ∈ stdout (con (main base files))).
Proof.
  intros base files.
  split_and!; [apply main_stderr | apply main_stdout |].
  intros f e Hf Hign Hread. rewrite main_stdout, !elem_of_app. right. left.
  by apply elem_of_walk_errors.
Qed.

(** A run over one unreadable file: its error line is the fifth line of
    standard output, after the banner, and standard error stays empty. *)
Lemma C4_counterexample :
  stdout (con (main "/p/" [unreadable_b])) !! 4
  = Some (error_line "/p/app/b.tsx" "denied")
  ∧ stderr (con (main "/p/" [unreadable_b])) = [].
Proof. split; by vm_compute. Qed.

(** C7: when the traversal yields each path once, the total that the run
    keeps is the number of matches held by the report, over all its rules
    and files, and the summary prints it: after the banner, the error lines
    and the sections, standard output is the summary heading between two
    rules, then the line [Total issues found: ] with that number in decimal,
    an empty line, one line per rule, and the remediation hint. *)
Theorem C7_total_is_sum_of_matches (base : string) (files : list tsx_file) :
  NoDup (rel_path <$> files) →
  total_issues (main base files) =
  aggregate_count (all_results (main base files))
  ∧ stdout (con (main base files)) =
    (banner ++ walk_errors base files
     ++ report_details (all_results (main base files)))
    ++ [ nl +:+ rule70;
         "SUMMARY";
         rule70;
         "Total issues found: "
           +:+ pretty (aggregate_count (all_results (main base files)));
         "" ]
    ++ ((λ kv, summary_line kv.1 kv.2)
          <$> sorted_items (all_results (main base files)))
    ++ remediation.
Proof.
  intros Hnd. rewrite main_eq. cbn [con stdout all_results total_issues].
  rewrite <- (aggregate_total base files Hnd). split; [done|].
  unfold report_summary, total_line. by rewrite <- !app_assoc.
Qed.

(** Three files with the paths [app/a.tsx], [app/b.tsx], [app/c.tsx], one
    of them unreadable, and one match in each of the other two: the summary
    says 2. *)
Lemma C7_witness :
  total_issues (main "/p/" [readable_a; unreadable_b; readable_c]) = 2
  ∧ stdout (con (main "/p/" [readable_a; unreadable_b; readable_c])) =
    (banner ++ [error_line "/p/app/b.tsx" "denied"]
     ++ report_details
          (all_results (main "/p/" [readable_a; unreadable_b; readable_c])))
    ++ [ nl +:+ rule70; "SUMMARY"; rule70; "Total issues found: 2"; "" ]
    ++ [ "  bg-*-50 (use -100): 1 occurrences in 1 files";
         "  dark:bg-*-N/opacity: 1 occurrences in 1 files" ]
    ++ remediation.
Proof.
  refine (C7_total_is_sum_of_matches "/p/"
            [readable_a; unreadable_b; readable_c] _).
  apply (bool_decide_unpack _). vm_compute. reflexivity.
Defined.

(** C8: the sections of the report follow the rule names in increasing
    lexicographic order, and within a section the files follow their paths
    in increasing lexicographic order; a file's block is its header, then
    for each of its first five matches, and no more, a line with the word
    Line, the line number in decimal, a colon and the matched text, and
    then, exactly when the file has more than five matches, one note that
    says how many matches beyond the five there are. *)
Theorem C8_report_order_and_truncation :
  (∀ (base : string) (files : list tsx_file),
     stdout (con (main base files)) =
     banner ++ walk_errors base files
     ++ mjoin ((λ kv, report_pattern kv.1 kv.2)
                 <$> sorted_items (all_results (main base files)))
     ++ report_summary (all_results (main base files))
          (total_issues (main base files)))
  ∧ (∀ all : gmap string (gmap string (list Match)),
       sorted_items all ≡ₚ map_to_list all
       ∧ StronglySorted (λ a b, String.ltb a b = true) (sorted_items all).*1)
  ∧ (∀ (name : string) (fs : gmap string (list Match)),
       report_pattern name fs =
       pattern_header name fs
       ++ mjoin ((λ kv, report_file kv.1 kv.2) <$> sorted_items fs)
       ∧ sorted_items fs ≡ₚ map_to_list fs
       ∧ StronglySorted (λ a b, String.ltb a b = true) (sorted_items fs).*1)
  ∧ (∀ (path : string) (ms : list Match),
       report_file path ms =
       (nl +:+ "  " +:+ path +:+ ":")
       :: ((λ m, "    Line " +:+ pretty (m_line m) +:+ ": " +:+ m_match m)
             <$> take 5 ms)
       ++ (if decide (5 < length ms)
           then ["    ... and " +:+ pretty (length (drop 5 ms)) +:+ " more"]
           else [])
       ∧ length (take 5 ms) = min 5 (length ms)
       ∧ length ms = length (take 5 ms) + length (drop 5 ms)).
Proof.
  split_and!.
  - intros base files. apply main_stdout.
  - intros all. split; [apply sorted_items_perm | apply sorted_items_keys_sorted].
  - intros name fs.
    split_and!; [done | apply sorted_items_perm | apply sorted_items_keys_sorted].
  - intros path ms. split_and!.
    + unfold report_file, file_header, match_line, more_line.
      by rewrite length_drop.
    + apply length_take.
    + rewrite length_take, length_drop. lia.
Qed.

(** A file with seven matches: five lines and a note for the other two. *)
Lemma C8_witness :
  report_file "app/a.tsx" seven_matches =
  [ nl +:+ "  app/a.tsx:";
    "    Line 1: dark:bg-blue-900/50";
    "    Line 2: dark:bg-blue-900/50";
    "    Line 3: dark:bg-blue-900/50";
    "    Line 4: dark:bg-blue-900/50";
    "    Line 5: dark:bg-blue-900/50";
    "    ... and 2 more" ].
Proof.
  exact (proj1 (proj2 (proj2 (proj2 C8_report_order_and_truncation))
                  "app/a.tsx" seven_matches)).
Defined.

(** * Further properties of the traversal *)

Lemma aggregate_total_files (base : string) (files : list tsx_file)
    (acc : gmap string (gmap string (list Match)) * nat) :
  (aggregate base files acc).2 =
  acc.2 + sum_list_with (λ f, match_count (file_results base f)) files.
Proof.
  revert acc. induction files as [|f files IH]; intros acc; [simpl; lia|].
  rewrite aggregate_cons, IH. destruct acc as [a t].
  destruct (merge_results_spec (rel_path f) (file_results base f) a t)
    as (_ & -> & _).
  simpl. lia.
Qed.

(** Storing the matches of a path adds at most their number. *)
Lemma aggregate_count_set_entry_le (r p : string) (ms : list Match)
    (all : gmap string (gmap string (list Match))) :
  aggregate_count (set_entry r p ms all) ≤ aggregate_count all + length ms.
Proof.
  unfold set_entry. destruct (all !! r) as [fs|] eqn:Hr; simpl.
  - rewrite <- insert_delete_eq.
    rewrite aggregate_count_insert by apply lookup_delete_eq.
    rewrite (aggregate_count_delete r fs all Hr).
    destruct (fs !! p) as [old|] eqn:Hp.
    + rewrite <- (insert_delete_eq fs).
      rewrite match_count_insert by apply lookup_delete_eq.
      assert (match_count (delete p fs) ≤ match_count fs); [|lia].
      unfold match_count at 2.
      rewrite <- (map_to_list_delete fs p old Hp). simpl.
      unfold match_count. lia.
    + rewrite match_count_insert by done. lia.
  - rewrite aggregate_count_insert by done.
    rewrite match_count_insert, match_count_empty by done. lia.
Qed.

Lemma merge_results_count_le (p : string) (results : gmap string (list Match))
    (all : gmap string (gmap string (list Match))) (t : nat) :
  aggregate_count (merge_results p results (all, t)).1
  ≤ aggregate_count all + match_count results.
Proof.
  unfold merge_results.
  apply (map_fold_weak_ind
    (λ acc (m : gmap string (list Match)),
       aggregate_count acc.1 ≤ aggregate_count all + match_count m)).
  - simpl. lia.
  - intros i x m [a n] Hi Hle. simpl in *.
    rewrite match_count_insert by done.
    pose proof (aggregate_count_set_entry_le i p x a). lia.
Qed.

Lemma aggregate_count_le_total (base : string) (files : list tsx_file) :
  aggregate_count (aggregate base files (∅, 0)).1
  ≤ (aggregate base files (∅, 0)).2.
Proof.
  induction files as [|f files IH] using rev_ind.
  { simpl. by rewrite aggregate_count_empty. }
  rewrite aggregate_snoc.
  destruct (aggregate base files (∅, 0)) as [a t]. simpl in IH.
  pose proof (merge_results_count_le (rel_path f) (file_results base f) a t).
  destruct (merge_results_spec (rel_path f) (file_results base f) a t)
    as (_ & -> & _).
  lia.
Qed.

(** X1: the total of a run is the number of matches of the scan results of
    its files, one file after the other, so that an excluded or unreadable
    file adds nothing; the report never holds more matches than the total
    says. *)
Theorem total_counts_every_scan (base : string) (files : list tsx_file) :
  total_issues (main base files) =
  sum_list_with (λ f, match_count (file_results base f)) files
  ∧ aggregate_count (all_results (main base files))
    ≤ total_issues (main base files).
Proof.
  rewrite main_eq. cbn [all_results total_issues]. split.
  - by rewrite aggregate_total_files.
  - apply aggregate_count_le_total.
Qed.

(** With distinct paths every match handed over is in the report. *)
Lemma aggregate_complete (base : string) (files : list tsx_file) :
  NoDup (rel_path <$> files) →
  ∀ f r ms, f ∈ files → file_results base f !! r = Some ms →
    report_entry (aggregate base files (∅, 0)).1 r (rel_path f) = Some ms.
Proof.
  unfold report_entry.
  induction files as [|g files IH] using rev_ind; intros Hnd f r ms Hf Hres.
  { by apply elem_of_nil in Hf. }
  rewrite fmap_app, NoDup_app in Hnd. destruct Hnd as (Hnd & Hfresh & _).
  rewrite aggregate_snoc.
  destruct (aggregate base files (∅, 0)) as [a t]. simpl in IH.
  destruct (merge_results_spec (rel_path g) (file_results base g) a t)
    as (-> & _ & _).
  apply elem_of_app in Hf as [Hf|Hf%list_elem_of_singleton].
  - pose proof (IH Hnd f r ms Hf Hres) as Hprev.
    assert (Hne : rel_path g ≠ rel_path f).
    { intros Heq. apply (Hfresh (rel_path f)).
      - apply list_elem_of_fmap. by exists f.
      - simpl. rewrite Heq. apply list_elem_of_here. }
    destruct (file_results base g !! r) as [ms'|]; [|done].
    simpl. rewrite lookup_insert_ne by done.
    by destruct (a !! r).
  - subst g. rewrite Hres. simpl. apply lookup_insert_eq.
Qed.

Lemma report_entry_provenance (base : string) (files : list tsx_file)
    (r p : string) (ms : list Match) :
  report_entry (aggregate base files (∅, 0)).1 r p = Some ms →
  ∃ f, f ∈ files ∧ rel_path f = p ∧ file_results base f !! r = Some ms.
Proof.
  unfold report_entry.
  destruct ((aggregate base files (∅, 0)).1 !! r) as [fs|] eqn:E; [|done].
  simpl. intros Hp. by destruct (aggregate_provenance _ _ _ _ E) as [_ ?]; eauto.
Qed.

Lemma file_results_lookup_iff (base : string) (f : tsx_file) (r : string)
    (ms : list Match) :
  file_results base f !! r = Some ms ↔
  should_ignore (base +:+ rel_path f) = false
  ∧ ∃ content, read_text f = ReadOk content
               ∧ scan_content content !! r = Some ms.
Proof.
  split; [apply file_results_lookup|].
  intros (Hign & content & Hread & Hscan).
  unfold file_results. by rewrite Hign, Hread.
Qed.

(** X2: when the traversal yields each path once, the report holds for a
    rule and a path exactly the matches that the scan of the file of that
    path gave for the rule, the file being neither excluded nor unreadable:
    nothing found is lost and nothing else is there. *)
Theorem report_holds_exactly_the_scans (base : string)
    (files : list tsx_file) (r p : string) (ms : list Match) :
  NoDup (rel_path <$> files) →
  report_entry (all_results (main base files)) r p = Some ms ↔
  ∃ f content,
    f ∈ files ∧ rel_path f = p
    ∧ should_ignore (base +:+ p) = false
    ∧ read_text f = ReadOk content
    ∧ scan_content content !! r = Some ms.
Proof.
  intros Hnd. rewrite main_eq. cbn [all_results]. split.
  - intros (f & Hf & <- & Hres)%report_entry_provenance.
    apply file_results_lookup_iff in Hres as (Hign & content & Hread & Hscan).
    by exists f, content.
  - intros (f & content & Hf & <- & Hign & Hread & Hscan).
    apply aggregate_complete; [done..|].
    apply file_results_lookup_iff. split; [done|]. by exists content.
Qed.

(** The match of [readable_a] among three files. *)
Lemma report_holds_exactly_the_scans_witness :
  report_entry
    (all_results (main "/p/" [readable_a; unreadable_b; readable_c]))
    dark_bg_name "app/a.tsx"
  = Some [mkMatch 1 dark_bg_sample dark_bg_sample].
Proof.
  apply (report_holds_exactly_the_scans "/p/"
           [readable_a; unreadable_b; readable_c]).
  - apply (bool_decide_unpack _). vm_compute. reflexivity.
  - exists readable_a, dark_bg_sample.
    split; [apply list_elem_of_here|].
    split; [reflexivity|]. split; [vm_compute; reflexivity|].
    split; [reflexivity|]. vm_compute. reflexivity.
Defined.

(** Two reports without empty rules hold the same entries only if they are
    the same report. *)
Lemma report_ext (a b : gmap string (gmap string (list Match))) :
  (∀ r fs, a !! r = Some fs → fs ≠ ∅) →
  (∀ r fs, b !! r = Some fs → fs ≠ ∅) →
  (∀ r p, report_entry a r p = report_entry b r p) →
  a = b.
Proof.
  intros Ha Hb Heq. apply map_eq. intros r.
  pose proof (Heq r) as Hr. unfold report_entry in Hr.
  destruct (a !! r) as [fa|] eqn:Ea, (b !! r) as [fb|] eqn:Eb; simpl in Hr.
  - f_equal. by apply map_eq.
  - destruct (map_choose fa (Ha r fa Ea)) as (p & x & Hp).
    specialize (Hr p). by rewrite Hp in Hr.
  - destruct (map_choose fb (Hb r fb Eb)) as (p & x & Hp).
    specialize (Hr p). by rewrite Hp in Hr.
  - done.
Qed.

Lemma aggregate_perm (base : string) (l1 l2 : list tsx_file) :
  l1 ≡ₚ l2 → NoDup (rel_path <$> l1) →
  aggregate base l1 (∅, 0) = aggregate base l2 (∅, 0).
Proof.
  intros Hperm Hnd1.
  assert (Hnd2 : NoDup (rel_path <$> l2)) by by rewrite <- Hperm.
  assert (Hall : (aggregate base l1 (∅, 0)).1 = (aggregate base l2 (∅, 0)).1).
  { apply report_ext.
    - intros r fs Hr. by destruct (aggregate_provenance _ _ _ _ Hr).
    - intros r fs Hr. by destruct (aggregate_provenance _ _ _ _ Hr).
    - intros r p. apply option_eq. intros ms. split.
      + intros (f & Hf & <- & Hres)%report_entry_provenance.
        apply aggregate_complete; [done| |done]. by rewrite <- Hperm.
      + intros (f & Hf & <- & Hres)%report_entry_provenance.
        apply aggregate_complete; [done| |done]. by rewrite Hperm. }
  pose proof (aggregate_total base l1 Hnd1) as H1.
  pose proof (aggregate_total base l2 Hnd2) as H2.
  rewrite Hall in H1.
  destruct (aggregate base l1 (∅, 0)), (aggregate base l2 (∅, 0)).
  simpl in *. congruence.
Qed.

(** X3: the order in which the traversal yields the files does not show in
    the result: for two orders of the same files, with distinct paths, the
    report and the total are the same and so are the printed sections and
    summary; only the error lines, which are the same lines, follow the
    traversal. *)
Theorem traversal_order_does_not_matter (base : string)
    (files files' : list tsx_file) :
  files ≡ₚ files' → NoDup (rel_path <$> files) →
  all_results (main base files) = all_results (main base files')
  ∧ total_issues (main base files) = total_issues (main base files')
  ∧ walk_errors base files ≡ₚ walk_errors base files'
  ∧ ∃ report,
      stdout (con (main base files)) =
        banner ++ walk_errors base files ++ report
      ∧ stdout (con (main base files')) =
        banner ++ walk_errors base files' ++ report.
Proof.
  intros Hperm Hnd. rewrite !main_eq. cbn [all_results total_issues con stdout].
  rewrite <- (aggregate_perm base files files' Hperm Hnd).
  split_and!; [done|done| |by eexists].
  unfold walk_errors. by apply Permutation_flat_map.
Qed.

(** The same three files in two orders. *)
Lemma traversal_order_does_not_matter_witness :
  all_results (main "/p/" [readable_a; unreadable_b; readable_c]) =
  all_results (main "/p/" [readable_c; readable_a; unreadable_b]).
Proof.
  apply (traversal_order_does_not_matter "/p/"
           [readable_a; unreadable_b; readable_c]
           [readable_c; readable_a; unreadable_b]).
  - apply (Permutation_app_comm [readable_a; unreadable_b] [readable_c]).
  - apply (bool_decide_unpack _). vm_compute. reflexivity.
Defined.

Lemma sum_lengths_ge {A} (l : list (string * list A)) :
  Forall (λ kv, kv.2 ≠ []) l →
  length l ≤ sum_list_with (λ kv, length kv.2) l.
Proof.
  induction 1 as [|[k v] l Hv _ IH]; simpl in *; [lia|].
  destruct v; [done|]. simpl. lia.
Qed.

(** X4: in every section of the report the number of files is at least one
    and the number of occurrences is at least the number of files, these
    being the two numbers the section header prints. *)
Theorem section_counts_are_positive (base : string) (files : list tsx_file)
    (r : string) (fs : gmap string (list Match)) :
  all_results (main base files) !! r = Some fs →
  1 ≤ size fs ∧ size fs ≤ match_count fs.
Proof.
  rewrite main_eq. cbn [all_results].
  intros [Hne Hin]%aggregate_provenance. split.
  - apply map_size_non_empty_iff in Hne. lia.
  - unfold match_count. rewrite <- length_map_to_list.
    apply sum_lengths_ge, Forall_forall. intros [p ms] Hp%elem_of_map_to_list.
    simpl. destruct (Hin p ms Hp) as (f & _ & _ & Hres).
    apply file_results_lookup in Hres as (_ & content & _ & Hscan).
    by eapply scan_content_no_empty.
Qed.

(** The section of the dark background rule after one file. *)
Lemma section_counts_are_positive_witness :
  1 ≤ size ({[ "app/a.tsx" := [mkMatch 1 dark_bg_sample dark_bg_sample] ]}
              : gmap string (list Match))
  ∧ size ({[ "app/a.tsx" := [mkMatch 1 dark_bg_sample dark_bg_sample] ]}
            : gmap string (list Match))
    ≤ match_count
        {[ "app/a.tsx" := [mkMatch 1 dark_bg_sample dark_bg_sample] ]}.
Proof.
  apply (section_counts_are_positive "/p/" [readable_a] dark_bg_name).
  vm_compute. reflexivity.
Defined.

Lemma PATTERNS_names :
  PATTERNS.*1 = [bg50_name; dark_bg_name; dark_hover_name; dark_border_name].
Proof. done. Qed.

(** X5: the rules of the report are rules of the table, so that it has at
    most four sections, whatever the files hold. *)
Theorem report_rules_are_in_the_table (base : string) (files : list tsx_file) :
  (∀ r fs, all_results (main base files) !! r = Some fs → r ∈ PATTERNS.*1)
  ∧ size (all_results (main base files)) ≤ 4.
Proof.
  assert (Hnames : ∀ r fs, all_results (main base files) !! r = Some fs →
                           r ∈ PATTERNS.*1).
  { intros r fs. rewrite main_eq. cbn [all_results].
    intros Hr. destruct (aggregate_provenance _ _ _ _ Hr) as [Hne Hin].
    destruct (map_choose fs Hne) as (p & ms & Hp).
    destruct (Hin p ms Hp) as (f & _ & _ & Hres).
    apply file_results_lookup in Hres as (_ & content & _ & Hscan).
    destruct (scan_content_keys _ _ _ Hscan) as [regex Hin'].
    apply list_elem_of_fmap. by exists (r, regex). }
  split; [done|].
  rewrite <- length_map_to_list.
  rewrite <- (length_fmap fst (map_to_list (all_results (main base files)))).
  change 4 with (length PATTERNS.*1).
  apply submseteq_length, NoDup_submseteq; [apply NoDup_fst_map_to_list|].
  intros r ([r' fs] & -> & Hr%elem_of_map_to_list)%list_elem_of_fmap.
  by eapply Hnames.
Qed.

Lemma hands_nothing_results (base : string) (f : tsx_file) :
  hands_nothing base f → file_results base f = ∅.
Proof.
  intros [Hign|[[e Hread]|(content & Hread & Hscan)]].
  - by apply file_results_ignored.
  - by eapply file_results_unreadable.
  - unfold file_results. rewrite Hread, Hscan.
    by destruct (should_ignore (base +:+ rel_path f)).
Qed.

Lemma aggregate_nothing (base : string) (files : list tsx_file)
    (acc : gmap string (gmap string (list Match)) * nat) :
  Forall (hands_nothing base) files → aggregate base files acc = acc.
Proof.
  induction 1 as [|f files Hf _ IH]; [done|].
  by rewrite aggregate_cons, (hands_nothing_results _ _ Hf),
    merge_results_empty.
Qed.

Lemma sorted_items_empty {V} : sorted_items (∅ : gmap string V) = [].
Proof. unfold sorted_items. by rewrite map_to_list_empty. Qed.

(** X6: when no file has a match to hand over, because it is excluded,
    unreadable or clean, and in particular when the traversal yields no file
    at all, the report is empty, the total is 0, and the output is the
    banner, the error lines and the summary for zero issues, without any
    section. *)
Theorem nothing_found_run (base : string) (files : list tsx_file) :
  Forall (hands_nothing base) files →
  all_results (main base files) = ∅
  ∧ total_issues (main base files) = 0
  ∧ stdout (con (main base files)) =
    banner ++ walk_errors base files ++ empty_summary.
Proof.
  intros Hall. rewrite main_eq. cbn [all_results total_issues con stdout].
  rewrite aggregate_nothing by done. cbn [fst snd].
  split_and!; [done..|].
  unfold report_details, report_summary. by rewrite !sorted_items_empty.
Qed.

(** An unreadable file and an excluded one: the banner, one error line and
    the summary for zero issues. *)
Lemma nothing_found_run_witness :
  stdout (con (main "/p/" [unreadable_b; excluded_d])) =
  banner ++ [error_line "/p/app/b.tsx" "denied"] ++ empty_summary.
Proof.
  apply (nothing_found_run "/p/" [unreadable_b; excluded_d]).
  constructor; [|constructor; [|constructor]].
  - right. left. exists "denied". reflexivity.
  - left. vm_compute. reflexivity.
Defined.

(** ** Further properties of the exclusion filter *)

Lemma str_app_assoc (a b c : string) : (a +:+ b) +:+ c = a +:+ b +:+ c.
Proof.
  induction a as [|x a IH]; [done|].
  change ((String x a +:+ b) +:+ c) with (String x ((a +:+ b) +:+ c)).
  by rewrite IH.
Qed.

Lemma str_prefix_app (a b : string) :
  String.prefix a b = true → ∃ suf, b = a +:+ suf.
Proof.
  revert b. induction a as [|x a IH]; intros b.
  - intros _. by exists b.
  - destruct b as [|y b]; simpl; [done|].
    destruct (ascii_dec x y) as [->|]; [|done].
    intros [suf ->]%IH. by exists suf.
Qed.

(** The substring test, spelled out. *)
Lemma str_in_iff (needle hay : string) :
  str_in needle hay = true ↔ ∃ pre suf, hay = pre +:+ needle +:+ suf.
Proof.
  split; [|intros (pre & suf & ->); apply str_in_infix].
  induction hay as [|c hay IH]; cbn [str_in]; rewrite orb_true_iff.
  - intros [[suf ->]%str_prefix_app|]; [|done]. by exists "", suf.
  - intros [[suf ->]%str_prefix_app|(pre & suf & ->)%IH].
    + by exists "", suf.
    + by exists (String c pre), suf.
Qed.

Lemma should_ignore_texts (path : string) :
  should_ignore path = true ↔
  ∃ t, t ∈ IGNORE_TEXTS ∧ str_in t path = true.
Proof.
  rewrite should_ignore_substring, !orb_true_iff. unfold IGNORE_TEXTS. split.
  - intros [[[[H|H]|H]|H]|H]; eexists; (split; [|exact H]);
      apply list_elem_of_In; simpl; tauto.
  - intros (t & Ht%list_elem_of_In & Hin). simpl in Ht.
    destruct Ht as [<-|[<-|[<-|[<-|[<-|[]]]]]]; tauto.
Qed.

(** X7: a path is excluded exactly when one of the five texts
    [node_modules], [.next], [dist], [lib/colors.ts], [tailwind.config]
    occurs somewhere in it, the dots being literal; so a path stays excluded
    with anything put before or after it. *)
Theorem exclusion_is_substring_containment :
  (∀ path : string,
     should_ignore path = true ↔
     ∃ t pre suf, t ∈ IGNORE_TEXTS ∧ path = pre +:+ t +:+ suf)
  ∧ (∀ before path after : string,
       should_ignore path = true →
       should_ignore (before +:+ path +:+ after) = true).
Proof.
  assert (Hiff : ∀ path : string,
     should_ignore path = true ↔
     ∃ t pre suf, t ∈ IGNORE_TEXTS ∧ path = pre +:+ t +:+ suf).
  { intros path. rewrite should_ignore_texts. split.
    - intros (t & Ht & (pre & suf & ->)%str_in_iff). by exists t, pre, suf.
    - intros (t & pre & suf & Ht & ->). exists t. split; [done|].
      apply str_in_infix. }
  split; [done|].
  intros before path after (t & pre & suf & Ht & ->)%Hiff.
  apply Hiff. exists t, (before +:+ pre), (suf +:+ after).
  split; [done|]. by rewrite !str_app_assoc.
Qed.

(** A file named after a distance is excluded for the [dist] in its name. *)
Lemma exclusion_is_substring_containment_witness :
  should_ignore ("/p/" +:+ "app/distance/page.tsx" +:+ "") = true.
Proof.
  apply (proj2 exclusion_is_substring_containment "/p/"
           "app/distance/page.tsx" "").
  vm_compute. reflexivity.
Defined.

Lemma should_ignore_base (base rel : string) :
  should_ignore base = true → should_ignore (base +:+ rel) = true.
Proof.
  intros (t & Ht & (pre & suf & ->)%str_in_iff)%should_ignore_texts.
  apply should_ignore_texts. exists t. split; [done|].
  apply str_in_iff. exists pre, (suf +:+ rel). by rewrite !str_app_assoc.
Qed.

(** X8: when the directory the script walks lies under a path that an
    exclusion pattern matches, every file is excluded: the run reads no
    file, prints no error and ends as the run over no file at all. *)
Theorem excluded_base_excludes_everything (base : string)
    (files : list tsx_file) :
  should_ignore base = true → main base files = main base [].
Proof.
  intros Hbase. unfold main.
  assert (Hwalk : ∀ st, walk base files st = st); [|by rewrite Hwalk].
  unfold walk. induction files as [|f files IH]; intros st; [done|].
  cbn [foldl]. unfold walk_step at 2.
  by rewrite should_ignore_base, IH.
Qed.

(** A checkout under a directory called [dist]. *)
Lemma excluded_base_excludes_everything_witness :
  main "/home/me/dist/site/" [readable_a; readable_c] =
  main "/home/me/dist/site/" [].
Proof.
  apply (excluded_base_excludes_everything "/home/me/dist/site/").
  vm_compute. reflexivity.
Defined.

(** * Further properties of the scanner *)

(** ** Lines *)

Lemma split_nl_nonempty (s : string) : split_nl s ≠ [].
Proof.
  destruct s as [|c s]; simpl; [done|].
  destruct (Ascii.eqb c "010"); [done|]. by destruct (split_nl s).
Qed.

Lemma split_nl_cons (c : ascii) (s : string) :
  split_nl (String c s) =
  if Ascii.eqb c "010" then "" :: split_nl s
  else match split_nl s with
       | l :: ls => String c l :: ls
       | [] => [String c ""]
       end.
Proof. done. Qed.

Lemma split_nl_app (a b : string) :
  split_nl (a +:+ nl +:+ b) = split_nl a ++ split_nl b.
Proof.
  induction a as [|c a IH]; [done|].
  change (String c a +:+ nl +:+ b) with (String c (a +:+ nl +:+ b)).
  rewrite !split_nl_cons, IH. destruct (Ascii.eqb c "010"); [done|].
  pose proof (split_nl_nonempty a). by destruct (split_nl a).
Qed.

Lemma concat_cons_cons (sep x y : string) (l : list string) :
  String.concat sep (x :: y :: l) = x +:+ sep +:+ String.concat sep (y :: l).
Proof. done. Qed.

Lemma concat_split_nl (s : string) : String.concat nl (split_nl s) = s.
Proof.
  induction s as [|c s IH]; [done|]. rewrite split_nl_cons.
  pose proof (split_nl_nonempty s) as Hne.
  destruct (Ascii.eqb_spec c "010") as [->|Hc];
    destruct (split_nl s) as [|l ls]; try done.
  - by rewrite concat_cons_cons, IH.
  - destruct ls as [|l' ls].
    + simpl in *. by rewrite IH.
    + rewrite concat_cons_cons. rewrite concat_cons_cons in IH.
      change (String c l +:+ nl +:+ String.concat nl (l' :: ls))
        with (String c (l +:+ nl +:+ String.concat nl (l' :: ls))).
      by rewrite IH.
Qed.

Lemma split_nl_no_newline (s : string) :
  Forall (λ l, str_forall (λ c, negb (Ascii.eqb c "010")) l = true)
         (split_nl s).
Proof.
  induction s as [|c s IH]; [by repeat constructor|]. rewrite split_nl_cons.
  destruct (Ascii.eqb c "010") eqn:Hc; [by constructor|].
  destruct (split_nl s) as [|l ls]; [by repeat constructor; simpl; rewrite Hc|].
  apply Forall_cons in IH as [Hl Hls].
  constructor; [|done]. simpl. by rewrite Hc, Hl.
Qed.

Lemma split_nl_plain (l : string) :
  str_forall (λ c, negb (Ascii.eqb c "010")) l = true → split_nl l = [l].
Proof.
  induction l as [|c l IH]; [done|]. simpl.
  intros [Hc Hl]%andb_true_iff. apply negb_true_iff in Hc.
  by rewrite Hc, IH.
Qed.

Lemma split_nl_concat (lines : list string) :
  lines ≠ [] →
  Forall (λ l, str_forall (λ c, negb (Ascii.eqb c "010")) l = true) lines →
  split_nl (String.concat nl lines) = lines.
Proof.
  intros Hne Hall. induction Hall as [|l ls Hl Hls IH]; [done|].
  destruct ls as [|l' ls]; [by apply split_nl_plain|].
  rewrite concat_cons_cons, split_nl_app, IH by done.
  by rewrite split_nl_plain.
Qed.

(** X9: splitting a text at its newlines and joining the lines with
    newlines are inverse to each other: the lines of a text, joined, are the
    text, no line holds a newline, there is at least one line, and a
    non-empty list of newline-free lines is the list of lines of its join.
    So line [n] of the scan is the text between newline [n-1] and newline
    [n] of the file. *)
Theorem lines_and_text_round_trip :
  (∀ content : string,
     String.concat nl (split_nl content) = content
     ∧ split_nl content ≠ []
     ∧ Forall (λ l, str_forall (λ c, negb (Ascii.eqb c "010")) l = true)
              (split_nl content))
  ∧ (∀ lines : list string,
       lines ≠ [] →
       Forall (λ l, str_forall (λ c, negb (Ascii.eqb c "010")) l = true)
              lines →
       split_nl (String.concat nl lines) = lines).
Proof.
  split.
  - intros content. split_and!;
      [apply concat_split_nl | apply split_nl_nonempty
       | apply split_nl_no_newline].
  - apply split_nl_concat.
Qed.

(** Three lines, the second one empty. *)
Lemma lines_and_text_round_trip_witness :
  split_nl (String.concat nl ["a"; ""; "b"]) = ["a"; ""; "b"].
Proof.
  apply (proj2 lines_and_text_round_trip ["a"; ""; "b"]).
  - discriminate.
  - repeat constructor.
Defined.

(** ** Records of a file *)

Lemma line_records_sorted n line (regex : Re.regex) :
  Forall (λ r, m_line r = n) (line_records n line regex).
Proof.
  apply Forall_forall. by intros r (m & -> & _)%elem_of_line_records.
Qed.

Lemma file_records_sorted n lines (regex : Re.regex) :
  StronglySorted (λ a b, m_line a ≤ m_line b) (file_records n lines regex).
Proof.
  revert n. induction lines as [|l lines IH]; intros n; simpl; [constructor|].
  apply StronglySorted_app_2; [| |apply IH].
  - intros r1 r2 Hr1 Hr2%file_records_line_ge.
    pose proof (line_records_sorted n l regex) as Hall.
    rewrite Forall_forall in Hall. rewrite (Hall r1 Hr1). lia.
  - pose proof (line_records_sorted n l regex) as Hall.
    induction Hall as [|r rs Hr Hrs IHrs]; constructor; [done|].
    apply Forall_forall. intros r' Hr'.
    rewrite Forall_forall in Hrs. rewrite Hr, (Hrs r' Hr'). lia.
Qed.

(** X10: the matches recorded for a rule come in the order of their lines,
    from 1 up to the number of lines of the file at most. *)
Theorem records_follow_the_lines (content name : string)
    (recs : list Match) :
  scan_content content !! name = Some recs →
  StronglySorted (λ a b, m_line a ≤ m_line b) recs
  ∧ Forall (λ r, 1 ≤ m_line r ≤ length (split_nl content)) recs.
Proof.
  intros Hrecs.
  destruct (scan_content_entry _ _ _ Hrecs) as (_ & regex & Hin & ->).
  split; [apply file_records_sorted|].
  apply Forall_forall.
  intros r (i & line & Hi & (m & -> & _)%elem_of_line_records)
    %elem_of_file_records.
  apply lookup_lt_Some in Hi. simpl. lia.
Qed.

(** Two lines with a dark background each. *)
Lemma records_follow_the_lines_witness :
  StronglySorted (λ a b, m_line a ≤ m_line b)
    [mkMatch 1 dark_bg_sample dark_bg_sample;
     mkMatch 2 dark_bg_sample dark_bg_sample]
  ∧ Forall (λ r, 1 ≤ m_line r
                 ≤ length (split_nl (dark_bg_sample +:+ nl +:+ dark_bg_sample)))
      [mkMatch 1 dark_bg_sample dark_bg_sample;
       mkMatch 2 dark_bg_sample dark_bg_sample].
Proof.
  apply (records_follow_the_lines
           (dark_bg_sample +:+ nl +:+ dark_bg_sample) dark_bg_name).
  vm_compute. reflexivity.
Defined.

Lemma line_records_shift k n line (regex : Re.regex) :
  line_records (k + n) line regex = shift_line k <$> line_records n line regex.
Proof. unfold line_records. by rewrite <- list_fmap_compose. Qed.

Lemma file_records_shift k n lines (regex : Re.regex) :
  file_records (k + n) lines regex =
  shift_line k <$> file_records n lines regex.
Proof.
  revert n. induction lines as [|l lines IH]; intros n; simpl; [done|].
  rewrite fmap_app, line_records_shift, <- IH. by rewrite Nat.add_succ_r.
Qed.

Lemma file_records_app n l1 l2 (regex : Re.regex) :
  file_records n (l1 ++ l2) regex =
  file_records n l1 regex ++ file_records (length l1 + n) l2 regex.
Proof.
  revert n. induction l1 as [|l l1 IH]; intros n; simpl; [done|].
  by rewrite IH, Nat.add_succ_r, app_assoc.
Qed.

Lemma dd_get_scan_content_other (content name : string) :
  name ∉ PATTERNS.*1 → dd_get name (scan_content content) = [].
Proof.
  intros Hout. unfold dd_get, scan_content.
  by rewrite scan_lines_other, lookup_empty.
Qed.

(** X11: scanning goes line by line: the matches of a text followed by a
    newline and a second text are those of the first text, then those of the
    second text with their line numbers moved down by the number of lines of
    the first; nothing of what comes later changes what is recorded for the
    lines before. *)
Theorem scan_of_appended_text (a b name : string) :
  dd_get name (scan_content (a +:+ nl +:+ b)) =
  dd_get name (scan_content a)
  ++ (shift_line (length (split_nl a)) <$> dd_get name (scan_content b)).
Proof.
  destruct (decide (name ∈ PATTERNS.*1)) as [Hin|Hout].
  - apply list_elem_of_fmap in Hin as ([name' regex] & -> & Hin). simpl.
    rewrite !(dd_get_scan_content _ _ regex Hin).
    by rewrite split_nl_app, file_records_app, file_records_shift.
  - by rewrite !dd_get_scan_content_other.
Qed.

(** ** The texts of the matches and the suppression test *)

Lemma str_forall_impl (p q : ascii → bool) (s : string) :
  (∀ c, p c = true → q c = true) →
  str_forall p s = true → str_forall q s = true.
Proof.
  intros Hpq. induction s as [|c s IH]; [done|]. simpl.
  intros [Hc Hs]%andb_true_iff. by rewrite (Hpq c Hc), IH.
Qed.

Lemma is_word_not (c x : ascii) : is_word x = false → is_word c = true → c ≠ x.
Proof. intros Hx Hc ->. congruence. Qed.

Lemma is_digit_not (c x : ascii) :
  is_digit x = false → is_digit c = true → c ≠ x.
Proof. intros Hx Hc ->. congruence. Qed.

(** A needle is not found in a stretch without its first character. *)
Lemma str_in_skip (h : ascii) (t a b : string) :
  str_forall (λ c, negb (Ascii.eqb c h)) a = true →
  str_in (String h t) (a +:+ b) = str_in (String h t) b.
Proof.
  induction a as [|c a IH]; [done|]. simpl.
  intros [Hc Ha]%andb_true_iff. apply negb_true_iff, Ascii.eqb_neq in Hc.
  change (String c a +:+ b) with (String c (a +:+ b)). cbn [str_in String.prefix].
  destruct (ascii_dec h c) as [->|]; [done|]. by rewrite IH.
Qed.

Lemma str_in_skip_word (t a b : string) :
  str_forall is_word a = true →
  str_in (String "-" t) (a +:+ b) = str_in (String "-" t) b.
Proof.
  intros Ha. apply str_in_skip. revert Ha. apply str_forall_impl.
  intros c Hc. apply negb_true_iff, Ascii.eqb_neq. by apply is_word_not.
Qed.

Lemma str_in_skip_digit (t a b : string) :
  str_forall is_digit a = true →
  str_in (String "-" t) (a +:+ b) = str_in (String "-" t) b.
Proof.
  intros Ha. apply str_in_skip. revert Ha. apply str_forall_impl.
  intros c Hc. apply negb_true_iff, Ascii.eqb_neq. by apply is_digit_not.
Qed.

Lemma str_app_cons (c : ascii) (a b : string) :
  String c a +:+ b = String c (a +:+ b).
Proof. done. Qed.

Lemma str_app_nil_l (b : string) : "" +:+ b = b.
Proof. done. Qed.

Ltac prefix_cases :=
  rewrite ?str_app_cons, ?str_app_nil_l;
  repeat (cbn [String.prefix];
          match goal with
          | |- context [ascii_dec ?a ?b] =>
              destruct (ascii_dec a b); try discriminate; subst
          end).

(** The shade and opacity part [900/50] does not begin inside a word that
    a dash follows. *)
Lemma prefix_900_word (w t : string) :
  str_forall is_word w = true →
  String.prefix "900/50" (w +:+ String "-" t) = false.
Proof. destruct w as [|c1 [|c2 [|c3 [|c4 w]]]]; prefix_cases; done. Qed.

(** It begins the digits before a slash exactly when they are [900] and the
    digits after the slash begin with [50]. *)
Lemma prefix_900_digits (d1 d2 : string) :
  str_forall is_digit d1 = true →
  String.prefix "900/50" (d1 +:+ String "/" d2) = true ↔
  d1 = "900" ∧ String.prefix "50" d2 = true.
Proof.
  destruct d1 as [|c1 [|c2 [|c3 [|c4 d1]]]]; prefix_cases; try done;
    try (intros _; split; [done|intros [? _]; congruence]).
  intros _. split; [done|by intros [_ ?]].
Qed.

(** The needle [-900/50] in a text that starts with a dash. *)
Lemma str_in_dash (t s : string) :
  str_in (String "-" t) (String "-" s) =
  String.prefix t s || str_in (String "-" t) s.
Proof.
  cbn [str_in String.prefix]. by destruct (ascii_dec "-" "-").
Qed.

Lemma str_in_other (h c : ascii) (t s : string) :
  h ≠ c → str_in (String h t) (String c s) = str_in (String h t) s.
Proof.
  intros Hne. cbn [str_in String.prefix]. by destruct (ascii_dec h c).
Qed.

Lemma str_in_nil (h : ascii) (t : string) : str_in (String h t) "" = false.
Proof. done. Qed.

(** A match of the first rule never holds [-900/50]. *)
Lemma bg50_text_clear (w : string) (d : ascii) :
  str_forall is_word w = true →
  str_in "-900/50" ("bg-" +:+ w +:+ "-50" +:+ String d "") = false.
Proof.
  intros Hw. rewrite !str_app_cons, !str_app_nil_l.
  rewrite !str_in_other by done. rewrite str_in_dash.
  rewrite prefix_900_word, str_in_skip_word, orb_false_l by done.
  rewrite str_in_dash. cbn [String.prefix].
  destruct (ascii_dec "9" "5"); [done|]. rewrite orb_false_l.
  rewrite !str_in_other by done.
  destruct (Ascii.eqb_spec d "-") as [->|Hd].
  - by rewrite str_in_dash.
  - by rewrite str_in_other.
Qed.

(** X12: the focus ring exception never hides a -50 shade: whatever the
    line holds, every text the first rule finds in it is recorded, because
    no such text contains [-900/50]. *)
Theorem bg50_is_never_suppressed :
  (∀ line : string, kept line bg50_re = Re.findall bg50_re line)
  ∧ (∀ (content : string) (i : nat) (line : string),
       split_nl content !! i = Some line →
       filter (λ r, m_line r = S i) (dd_get bg50_name (scan_content content)) =
       (λ m, mkMatch (S i) m (context_of line)) <$> Re.findall bg50_re line).
Proof.
  assert (Hkept : ∀ line : string, kept line bg50_re = Re.findall bg50_re line).
  { intros line. unfold kept. apply filter_all, Forall_forall.
    intros m (pre & suf & _ & Hm)%ReFacts.findall_elem.
    apply ReShape.match_bg50_shape in Hm as (w & d & -> & _ & Hw & _).
    unfold suppressed. rewrite bg50_text_clear by done. apply andb_false_r. }
  split; [done|].
  intros content i line Hi.
  assert (Hin : (bg50_name, bg50_re) ∈ PATTERNS).
  { unfold PATTERNS. apply list_elem_of_here. }
  rewrite (dd_get_scan_content _ _ _ Hin).
  rewrite (file_records_filter_line 1 _ _ i line Hi). simpl.
  unfold line_records. by rewrite Hkept.
Qed.

(** A shade beside a focus ring with the suffix. *)
Lemma bg50_is_never_suppressed_witness :
  filter (λ r, m_line r = 1) (dd_get bg50_name (scan_content mixed_sample)) =
  [mkMatch 1 "bg-gray-50 " (context_of mixed_sample)].
Proof.
  apply (proj2 bg50_is_never_suppressed mixed_sample 0 mixed_sample).
  reflexivity.
Defined.

Module ReOpacity.
Import Re.

Lemma match_lit_prefix (t : string) (re : regex) (s m : string) :
  match_here (lit t ++ re) s = Some m →
  ∃ s' m', s = t +:+ s' ∧ m = t +:+ m' ∧ match_here re s' = Some m'.
Proof.
  revert s m. induction t as [|c t IH]; intros s m.
  - intros Hm. by exists s, m.
  - cbn [lit app].
    intros (s1 & m1 & -> & -> & (s' & m' & -> & -> & Hm)%IH)%ReShape.match_lit.
    by exists s', m'.
Qed.

Lemma match_many1_none (p : ascii → bool) (s : string) :
  match_here [Many1 p] s = None → starts_with p s = false.
Proof.
  destruct s as [|c s]; [done|]. cbn [match_here starts_with].
  destruct (p c); [|done].
  destruct (match_here [Many1 p] s); [done|]. by destruct s.
Qed.

(** A repetition that ends the pattern takes the whole run. *)
Lemma match_many1_end (p : ascii → bool) (s m : string) :
  match_here [Many1 p] s = Some m →
  ∃ rest, s = m +:+ rest ∧ m ≠ "" ∧ str_forall p m = true
          ∧ starts_with p rest = false.
Proof.
  revert m. induction s as [|c s IH]; intros m; [done|].
  cbn [match_here]. destruct (p c) eqn:Hp; [|done].
  destruct (match_here [Many1 p] s) as [m1|] eqn:E1.
  - simpl. intros [= <-].
    destruct (IH m1 eq_refl) as (rest & -> & _ & Hm1 & Hrest).
    exists rest. simpl. by rewrite Hp, Hm1.
  - apply match_many1_none in E1.
    assert (match_here [] s = Some "") as -> by by destruct s.
    simpl. intros [= <-]. exists s. simpl. by rewrite Hp.
Qed.

(** A match of an opacity rule: the prefix, a word, a dash, digits, a slash
    and digits, all the digits there are. *)
Lemma match_opacity_shape (prefix s m : string) :
  match_here (opacity_re prefix) s = Some m →
  ∃ w d1 d2 rest,
    s = m +:+ rest
    ∧ m = prefix +:+ w +:+ "-" +:+ d1 +:+ "/" +:+ d2
    ∧ w ≠ "" ∧ str_forall is_word w = true
    ∧ d1 ≠ "" ∧ str_forall is_digit d1 = true
    ∧ d2 ≠ "" ∧ str_forall is_digit d2 = true
    ∧ starts_with is_digit rest = false.
Proof.
  unfold opacity_re.
  intros (s1 & m1 & -> & -> & H)%match_lit_prefix.
  apply ReShape.match_many1 in H as (w & s2 & m2 & -> & -> & Hw & Hww & H).
  apply ReShape.match_lit in H as (s3 & m3 & -> & -> & H).
  apply ReShape.match_many1 in H as (d1 & s4 & m4 & -> & -> & Hd1 & Hdd1 & H).
  apply ReShape.match_lit in H as (s5 & m5 & -> & -> & H).
  apply match_many1_end in H as (rest & -> & Hd2 & Hdd2 & Hrest).
  exists w, d1, m5, rest. split_and!; try done.
  by repeat (rewrite str_app_assoc || rewrite str_app_cons
             || rewrite str_app_nil_l).
Qed.

End ReOpacity.

(** X13: every text recorded under one of the three opacity rules stands
    in its line as the rule's prefix, a non-empty word, a dash, a non-empty
    run of digits, a slash and a non-empty run of digits, and no digit
    follows it: the opacity is recorded whole. *)
Theorem opacity_match_is_whole (content name prefix : string)
    (recs : list Match) (r : Match) :
  (name, opacity_re prefix) ∈ PATTERNS →
  scan_content content !! name = Some recs → r ∈ recs →
  ∃ line before after w d1 d2,
    split_nl content !! (m_line r - 1) = Some line
    ∧ line = before +:+ m_match r +:+ after
    ∧ m_match r = prefix +:+ w +:+ "-" +:+ d1 +:+ "/" +:+ d2
    ∧ w ≠ "" ∧ str_forall is_word w = true
    ∧ d1 ≠ "" ∧ str_forall is_digit d1 = true
    ∧ d2 ≠ "" ∧ str_forall is_digit d2 = true
    ∧ starts_with is_digit after = false.
Proof.
  intros Hin Hrecs Hr.
  destruct (scan_content_record _ _ _ _ Hrecs Hr)
    as (regex & i & line & Hin' & Hi & Hrec & Hm & _).
  assert (regex = opacity_re prefix) as ->
    by by apply (PATTERNS_functional name).
  apply ReFacts.findall_elem in Hm as (before & suf & -> & Hm).
  apply ReOpacity.match_opacity_shape in Hm
    as (w & d1 & d2 & after & -> & Hshape & Hrest).
  exists (before +:+ m_match r +:+ after), before, after, w, d1, d2.
  rewrite Hrec at 1. simpl. rewrite Nat.sub_0_r.
  split; [done|]. split; [done|]. by split.
Qed.

(** An opacity of three digits followed by a letter. *)
Lemma opacity_match_is_whole_witness :
  ∃ line before after w d1 d2,
    split_nl "x dark:bg-red-800/405z" !! (1 - 1) = Some line
    ∧ line = before +:+ "dark:bg-red-800/405" +:+ after
    ∧ "dark:bg-red-800/405" = "dark:bg-" +:+ w +:+ "-" +:+ d1 +:+ "/" +:+ d2
    ∧ w ≠ "" ∧ str_forall is_word w = true
    ∧ d1 ≠ "" ∧ str_forall is_digit d1 = true
    ∧ d2 ≠ "" ∧ str_forall is_digit d2 = true
    ∧ starts_with is_digit after = false.
Proof.
  apply (opacity_match_is_whole "x dark:bg-red-800/405z" dark_bg_name
           "dark:bg-"
           [mkMatch 1 "dark:bg-red-800/405" "x dark:bg-red-800/405z"]
           (mkMatch 1 "dark:bg-red-800/405" "x dark:bg-red-800/405z")).
  - unfold PATTERNS. apply list_elem_of_further, list_elem_of_here.
  - vm_compute. reflexivity.
  - apply list_elem_of_here.
Defined.

Lemma str_app_nil_r (a : string) : a +:+ "" = a.
Proof.
  induction a as [|c a IH]; [done|]. by rewrite str_app_cons, IH.
Qed.

(** Where [-900/50] can stand in a text of an opacity rule: only at the
    dash before the shade. *)
Lemma opacity_text_suffix (prefix w d1 d2 : string) :
  prefix ∈ OPACITY_PREFIXES →
  str_forall is_word w = true →
  str_forall is_digit d1 = true → str_forall is_digit d2 = true →
  str_in "-900/50" (prefix +:+ w +:+ "-" +:+ d1 +:+ "/" +:+ d2) =
  String.prefix "900/50" (d1 +:+ String "/" d2).
Proof.
  intros Hp Hw Hd1 Hd2.
  assert (Htail : str_in "-900/50" (String "-" (w +:+ "-" +:+ d1 +:+ "/" +:+ d2))
                  = String.prefix "900/50" (d1 +:+ String "/" d2)).
  { rewrite !str_app_cons, !str_app_nil_l.
    rewrite str_in_dash, prefix_900_word, orb_false_l by done.
    rewrite str_in_skip_word, str_in_dash by done.
    rewrite str_in_skip_digit, str_in_other by done.
    rewrite <- (str_app_nil_r d2) at 2.
    rewrite str_in_skip_digit by done. apply orb_false_r. }
  unfold OPACITY_PREFIXES in Hp.
  rewrite !elem_of_cons, elem_of_nil in Hp.
  destruct Hp as [->|[->|[->|[]]]];
    rewrite !str_app_cons, str_app_nil_l;
    rewrite !str_in_other by done; exact Htail.
Qed.

Lemma PATTERNS_kinds (name : string) (regex : Re.regex) :
  (name, regex) ∈ PATTERNS →
  name = bg50_name
  ∨ ∃ prefix, prefix ∈ OPACITY_PREFIXES ∧ regex = opacity_re prefix.
Proof.
  unfold PATTERNS, OPACITY_PREFIXES. rewrite !elem_of_cons, elem_of_nil.
  intros [[= -> ->]|[[= -> ->]|[[= -> ->]|[[= -> ->]|[]]]]];
    [by left|right; eexists; split; [|done]..].
  - apply list_elem_of_here.
  - apply list_elem_of_further, list_elem_of_here.
  - do 2 apply list_elem_of_further. apply list_elem_of_here.
Qed.

(** X14: what the focus ring exception drops among the texts of the three
    opacity rules: a text is dropped exactly when its line contains
    [focus:ring], its shade is 900 and its opacity begins with 50; the test
    being a substring test, this is the opacity 50 and every longer one that
    starts with these digits, such as 500. *)
Theorem suppression_of_opacity_texts (name : string) (regex : Re.regex)
    (line m : string) :
  (name, regex) ∈ PATTERNS → name ≠ bg50_name →
  m ∈ Re.findall regex line →
  ∃ prefix w d1 d2,
    regex = opacity_re prefix
    ∧ m = prefix +:+ w +:+ "-" +:+ d1 +:+ "/" +:+ d2
    ∧ (suppressed line m = true ↔
       str_in "focus:ring" line = true
       ∧ d1 = "900" ∧ String.prefix "50" d2 = true).
Proof.
  intros [?|(prefix & Hp & ->)]%PATTERNS_kinds Hname Hm; [done|].
  apply ReFacts.findall_elem in Hm as (before & suf & _ & Hm).
  apply ReOpacity.match_opacity_shape in Hm
    as (w & d1 & d2 & after & _ & -> & _ & Hw & _ & Hd1 & _ & Hd2 & _).
  exists prefix, w, d1, d2. split; [done|]. split; [done|].
  unfold suppressed. rewrite andb_true_iff, opacity_text_suffix by done.
  by rewrite prefix_900_digits.
Qed.

(** A shade 900 with opacity 500 beside a focus ring. *)
Lemma suppression_of_opacity_texts_witness :
  ∃ prefix w d1 d2,
    opacity_re "dark:bg-" = opacity_re prefix
    ∧ "dark:bg-blue-900/500" = prefix +:+ w +:+ "-" +:+ d1 +:+ "/" +:+ d2
    ∧ (suppressed "focus:ring-2 dark:bg-blue-900/500" "dark:bg-blue-900/500"
       = true ↔
       str_in "focus:ring" "focus:ring-2 dark:bg-blue-900/500" = true
       ∧ d1 = "900" ∧ String.prefix "50" d2 = true).
Proof.
  apply (suppression_of_opacity_texts dark_bg_name (opacity_re "dark:bg-")
           "focus:ring-2 dark:bg-blue-900/500" "dark:bg-blue-900/500").
  - unfold PATTERNS. apply list_elem_of_further, list_elem_of_here.
  - discriminate.
  - vm_compute. apply list_elem_of_here.
Defined.

(** ** The context of a match *)

Lemma lstrip_split (s : string) :
  ∃ ws, s = ws +:+ lstrip s ∧ str_forall is_space ws = true.
Proof.
  induction s as [|c s (ws & Hs & Hws)]; [by exists ""|]. simpl.
  destruct (is_space c) eqn:Hc.
  - exists (String c ws). rewrite str_app_cons, <- Hs. simpl.
    by rewrite Hc, Hws.
  - by exists "".
Qed.

Lemma lstrip_starts (s : string) : starts_with is_space (lstrip s) = false.
Proof.
  induction s as [|c s IH]; [done|]. simpl.
  destruct (is_space c) eqn:Hc; [done|]. simpl. by rewrite Hc.
Qed.

Lemma rev_app_app (a b c : string) :
  String.rev_app a b +:+ c = String.rev_app a (b +:+ c).
Proof.
  revert b. induction a as [|x a IH]; intros b; [done|]. simpl.
  by rewrite IH, str_app_cons.
Qed.

Lemma rev_app_append (a c b : string) :
  String.rev_app (a +:+ c) b = String.rev_app c (String.rev_app a b).
Proof.
  revert b. induction a as [|x a IH]; intros b; [done|].
  rewrite str_app_cons. simpl. by rewrite IH.
Qed.

Lemma rev_append (a b : string) :
  String.rev (a +:+ b) = String.rev b +:+ String.rev a.
Proof.
  unfold String.rev. by rewrite rev_app_append, rev_app_app, str_app_nil_l.
Qed.

Lemma rev_app_rev_app (a b c : string) :
  String.rev_app (String.rev_app a b) c = String.rev_app b (a +:+ c).
Proof.
  revert b. induction a as [|x a IH]; intros b; [done|]. simpl.
  by rewrite IH.
Qed.

Lemma rev_rev (a : string) : String.rev (String.rev a) = a.
Proof.
  unfold String.rev. rewrite rev_app_rev_app. simpl. apply str_app_nil_r.
Qed.

Lemma str_forall_rev_app (p : ascii → bool) (a b : string) :
  str_forall p (String.rev_app a b) = str_forall p a && str_forall p b.
Proof.
  revert b. induction a as [|x a IH]; intros b; [done|]. simpl.
  rewrite IH. simpl. by destruct (p x), (str_forall p a).
Qed.

(** Stripping removes a stretch of whitespace at each end. *)
Lemma strip_split (s : string) :
  ∃ pre suf,
    s = pre +:+ strip s +:+ suf
    ∧ str_forall is_space pre = true ∧ str_forall is_space suf = true.
Proof.
  destruct (lstrip_split s) as (pre & Hs & Hpre).
  destruct (lstrip_split (String.rev (lstrip s))) as (ws & Hrev & Hws).
  exists pre, (String.rev ws). split_and!; [|done|].
  - rewrite Hs at 1. f_equal. unfold strip.
    rewrite <- rev_append, <- Hrev. by rewrite rev_rev.
  - unfold String.rev. by rewrite str_forall_rev_app, Hws.
Qed.

Lemma starts_with_app (p : ascii → bool) (a b : string) :
  starts_with p (a +:+ b) = false → starts_with p a = false.
Proof. by destruct a. Qed.

Lemma strip_starts (s : string) : starts_with is_space (strip s) = false.
Proof.
  destruct (lstrip_split (String.rev (lstrip s))) as (ws & Hrev & _).
  apply (starts_with_app _ _ (String.rev ws)).
  unfold strip. rewrite <- rev_append, <- Hrev, rev_rev.
  apply lstrip_starts.
Qed.

Lemma str_length_app (a b : string) :
  String.length (a +:+ b) = String.length a + String.length b.
Proof.
  induction a as [|c a IH]; [done|]. rewrite str_app_cons. simpl. by rewrite IH.
Qed.

(** [s[:n]] is a beginning of [s] of at most [n] characters, and all of
    [s] when [s] is no longer than that. *)
Lemma str_take_split (n : nat) (s : string) :
  ∃ rest, s = str_take n s +:+ rest
          ∧ String.length (str_take n s) ≤ n
          ∧ (String.length s ≤ n → rest = "").
Proof.
  unfold str_take. revert s. induction n as [|n IH]; intros s.
  - exists s. destruct s; simpl; split_and!; try done; lia.
  - destruct s as [|c s]; simpl.
    + exists "". split_and!; [done|lia|done].
    + destruct (IH s) as (rest & Hs & Hlen & Hall).
      exists rest. rewrite str_app_cons, <- Hs. simpl.
      split_and!; [done|lia|]. intros ?. apply Hall. lia.
Qed.

Lemma str_take_starts (p : ascii → bool) (n : nat) (s : string) :
  starts_with p s = false → starts_with p (str_take n s) = false.
Proof. unfold str_take. by destruct n, s. Qed.

Lemma context_of_spec (line : string) :
  ∃ pre suf,
    line = pre +:+ context_of line +:+ suf
    ∧ str_forall is_space pre = true
    ∧ String.length (context_of line) ≤ 100
    ∧ starts_with is_space (context_of line) = false
    ∧ (String.length line ≤ 100 → str_forall is_space suf = true).
Proof.
  destruct (strip_split line) as (pre & suf & Hline & Hpre & Hsuf).
  unfold context_of.
  destruct (str_take_split 100 (strip line)) as (rest & Hstrip & Hlen & Hall).
  exists pre, (rest +:+ suf). split_and!; try done.
  - by rewrite <- (str_app_assoc (str_take 100 (strip line)) rest suf),
      <- Hstrip.
  - apply str_take_starts, strip_starts.
  - intros Hshort. rewrite Hall; [done|].
    rewrite Hline, !str_length_app in Hshort. lia.
Qed.

(** X15: the context of a recorded match is a stretch of its line of at
    most 100 characters that starts at the first character of the line that
    is not whitespace; when the line has at most 100 characters, it is the
    line without the whitespace at its two ends. *)
Theorem context_is_the_trimmed_line (content name : string)
    (recs : list Match) (r : Match) :
  scan_content content !! name = Some recs → r ∈ recs →
  ∃ line pre suf,
    split_nl content !! (m_line r - 1) = Some line
    ∧ line = pre +:+ m_context r +:+ suf
    ∧ str_forall is_space pre = true
    ∧ String.length (m_context r) ≤ 100
    ∧ starts_with is_space (m_context r) = false
    ∧ (String.length line ≤ 100 → str_forall is_space suf = true).
Proof.
  intros Hrecs Hr.
  destruct (scan_content_record _ _ _ _ Hrecs Hr)
    as (regex & i & line & _ & Hi & -> & _ & _).
  destruct (context_of_spec line) as (pre & suf & Hspec).
  exists line, pre, suf. simpl. rewrite Nat.sub_0_r. by split.
Qed.

(** A line indented by two spaces with a blank at its end. *)
Lemma context_is_the_trimmed_line_witness :
  ∃ line pre suf,
    split_nl "  dark:bg-blue-900/50 " !! (1 - 1) = Some line
    ∧ line = pre +:+ "dark:bg-blue-900/50" +:+ suf
    ∧ str_forall is_space pre = true
    ∧ String.length "dark:bg-blue-900/50" ≤ 100
    ∧ starts_with is_space "dark:bg-blue-900/50" = false
    ∧ (String.length line ≤ 100 → str_forall is_space suf = true).
Proof.
  apply (context_is_the_trimmed_line "  dark:bg-blue-900/50 " dark_bg_name
           [mkMatch 1 "dark:bg-blue-900/50" "dark:bg-blue-900/50"]
           (mkMatch 1 "dark:bg-blue-900/50" "dark:bg-blue-900/50")).
  - vm_compute. reflexivity.
  - apply list_elem_of_here.
Defined.

(** ** The matches of a line *)

Lemma str_drop_app (m rest : string) :
  str_drop (String.length m) (m +:+ rest) = rest.
Proof. induction m as [|c m IH]; [by destruct rest|]. by rewrite str_app_cons. Qed.

Lemma weave_cons_gap (c : ascii) (gaps ms : list string) (last : string) :
  length gaps = length ms →
  ∃ gaps' last',
    length gaps' = length ms
    ∧ String c (weave gaps ms last) = weave gaps' ms last'.
Proof.
  destruct gaps as [|g gaps], ms as [|m ms]; try done; intros Hlen.
  - by exists [], (String c last).
  - by exists (String c g :: gaps), last.
Qed.

Lemma findall_weave (re : Re.regex) (s : string) :
  ∃ gaps last,
    length gaps = length (Re.findall re s)
    ∧ s = weave gaps (Re.findall re s) last.
Proof.
  remember (String.length s) as n eqn:Hn. revert s Hn.
  induction n as [n IH] using lt_wf_ind. intros s ->.
  destruct s as [|c s]; [by exists [], ""|].
  rewrite ReFacts.findall_unfold.
  destruct (Re.match_here re (String c s)) as [m|] eqn:Hm.
  - destruct (ReFacts.match_here_prefix _ _ _ Hm) as [rest Hs].
    destruct m as [|c' m].
    + destruct (IH (String.length s) (Nat.lt_succ_diag_r _) s eq_refl)
        as (gaps & last & Hlen & Hweave).
      exists (String c "" :: gaps), last. simpl. split; [by rewrite Hlen|].
      by rewrite str_app_cons, !str_app_nil_l, <- Hweave.
    + rewrite str_app_cons in Hs. injection Hs as -> ->.
      cbn [String.length]. rewrite Nat.sub_succ, Nat.sub_0_r, str_drop_app.
      destruct (IH (String.length rest)) with (s := rest)
        as (gaps & last & Hlen & Hweave); [|done|].
      { simpl. rewrite str_length_app. lia. }
      exists ("" :: gaps), last. simpl. split; [by rewrite Hlen|].
      by rewrite str_app_nil_l, str_app_cons, <- Hweave.
  - destruct (IH (String.length s) (Nat.lt_succ_diag_r _) s eq_refl)
      as (gaps & last & Hlen & Hweave).
    destruct (weave_cons_gap c gaps (Re.findall re s) last Hlen)
      as (gaps' & last' & Hlen' & Heq).
    exists gaps', last'. split; [done|]. by rewrite <- Heq, <- Hweave.
Qed.

Lemma weave_length (gaps ms : list string) (last : string) :
  length gaps = length ms →
  sum_list_with String.length ms ≤ String.length (weave gaps ms last).
Proof.
  revert ms. induction gaps as [|g gaps IH]; intros [|m ms]; try done.
  { simpl. lia. }
  intros [= Hlen]. simpl. rewrite !str_length_app.
  specialize (IH ms Hlen). lia.
Qed.

(** X16: the texts a rule finds in a line are stretches of the line that
    follow one another from left to right without overlapping, so that
    together they are no longer than the line. *)
Theorem matches_do_not_overlap (name : string) (regex : Re.regex)
    (line : string) :
  (name, regex) ∈ PATTERNS →
  (∃ gaps last,
     length gaps = length (Re.findall regex line)
     ∧ line = weave gaps (Re.findall regex line) last)
  ∧ sum_list_with String.length (Re.findall regex line) ≤ String.length line
  ∧ Forall (λ m, m ≠ "") (Re.findall regex line).
Proof.
  intros Hin. destruct (findall_weave regex line) as (gaps & last & Hlen & Hw).
  split_and!.
  - by exists gaps, last.
  - rewrite Hw at 2. by apply weave_length.
  - apply Forall_forall.
    intros m (pre & suf & _ & Hm)%ReFacts.findall_elem ->.
    destruct (PATTERNS_kinds _ _ Hin) as [->|(prefix & Hp & ->)].
    + assert (regex = bg50_re) as ->.
      { apply (PATTERNS_functional bg50_name); [done|].
        unfold PATTERNS. apply list_elem_of_here. }
      by apply ReShape.match_bg50_shape in Hm as (w & d & ? & _).
    + apply ReOpacity.match_opacity_shape in Hm
        as (w & d1 & d2 & after & _ & Hshape & _).
      unfold OPACITY_PREFIXES in Hp. rewrite !elem_of_cons, elem_of_nil in Hp.
      by destruct Hp as [->|[->|[->|[]]]].
Qed.

(** Two dark backgrounds on one line. *)
Lemma matches_do_not_overlap_witness :
  sum_list_with String.length
    (Re.findall (opacity_re "dark:bg-") mixed_sample)
  ≤ String.length mixed_sample.
Proof.
  apply (matches_do_not_overlap dark_bg_name (opacity_re "dark:bg-")
           mixed_sample).
  unfold PATTERNS. apply list_elem_of_further, list_elem_of_here.
Defined.
